(** * Pagination engine, scheduler and break projection layer

    A shallow embedding of
    - [src/app/hooks/usePagination.ts] (the [usePagination] hook, the
      [computePageBreaks] engine of [@/app/utils/pageCalculations] and the
      [Pagination] editor extension), and
    - the geometry those functions read from the browser,
    together with the properties the specification states about them.

    Conventions.  Pixel coordinates are integers ([Z]).  A JavaScript string
    is the list of its UTF-16 code units.  A DOM node reference is the node's
    identifier; the tree gives its content.  The browser's layout (bounding
    rectangles, range rectangles, the caret probe) is a record of functions,
    the measurement provider of the specification. *)

From Stdlib Require Import ZArith List Bool Lia String Ascii NArith Arith.
From Stdlib Require Import Sorted Permutation.
From Corelib Require Import PrimFloat.
Import ListNotations.
Open Scope Z_scope.

(** ** The DOM *)

Module Dom.

(** UTF-16 code units of a JavaScript string. *)
Definition jsString := list N.

Definition jsLength (s : jsString) : Z := Z.of_nat (List.length s).

(** The code units of a string of Latin-1 characters. *)
Definition ofString (s : string) : jsString :=
  List.map N_of_ascii (list_ascii_of_string s).

(** [s.charAt(i)]: the empty string (here [None]) outside the string. *)
Definition charAt (s : jsString) (i : Z) : option N :=
  if i <? 0 then None else nth_error s (Z.to_nat i).

(** The class [\s] of JavaScript regular expressions, which is also what
    [String.prototype.trim] strips. *)
Definition isWhiteSpaceUnit (c : N) : bool :=
  ((9 <=? c) && (c <=? 13) || (c =? 32) || (c =? 160) || (c =? 5760)
   || (8192 <=? c) && (c <=? 8202) || (c =? 8232) || (c =? 8233)
   || (c =? 8239) || (c =? 8287) || (c =? 12288) || (c =? 65279))%N.

(** [/\s/.test(str)] for a string of at most one code unit. *)
Definition testWhiteSpace (c : option N) : bool :=
  match c with
  | Some u => isWhiteSpaceUnit u
  | None => false
  end.

(** [s.trim().length === 0] *)
Definition trimIsEmpty (s : jsString) : bool := forallb isWhiteSpaceUnit s.

Record Text := mkText { textId : nat; data : jsString }.

#[local] Unset Elimination Schemes.
Inductive Node :=
| TextNode (t : Text)
| ElementNode (id : nat) (tagName : string) (childNodes : list Node).

#[local] Set Elimination Schemes.

Definition nodeId (n : Node) : nat :=
  match n with
  | TextNode t => textId t
  | ElementNode id _ _ => id
  end.

Definition childNodesOf (n : Node) : list Node :=
  match n with
  | TextNode _ => []
  | ElementNode _ _ cs => cs
  end.

(** Every text node of the subtree of [n], [n] included, in document
    order. *)
Fixpoint textsOf (n : Node) : list Text :=
  match n with
  | TextNode t => [t]
  | ElementNode _ _ cs => flat_map textsOf cs
  end.

(** Every element of the subtree of [n], [n] included, in document order. *)
Fixpoint elementsOf (n : Node) : list Node :=
  match n with
  | TextNode _ => []
  | ElementNode _ _ cs => n :: flat_map elementsOf cs
  end.

(** [block.contains(node)] followed by the use of [node]: the node with
    identifier [id] in the subtree of [n] ([n] included), if any. *)
Fixpoint findNode (id : nat) (n : Node) : option Node :=
  if Nat.eqb (nodeId n) id then Some n
  else
    match n with
    | TextNode _ => None
    | ElementNode _ _ cs =>
        (fix first (l : list Node) : option Node :=
           match l with
           | [] => None
           | c :: l' =>
               match findNode id c with
               | Some r => Some r
               | None => first l'
               end
           end) cs
    end.

(** A CSS selector list of type selectors, such as ["p,h1,h2"]. *)
Definition Selector := list string.

Definition matchesSelector (sel : Selector) (n : Node) : bool :=
  match n with
  | TextNode _ => false
  | ElementNode _ tag _ => existsb (String.eqb tag) sel
  end.

(** [root.querySelectorAll(sel)]: the matching descendants of [root]
    ([root] itself excluded) in document order. *)
Definition querySelectorAll (root : Node) (sel : Selector) : list Node :=
  filter (matchesSelector sel) (flat_map elementsOf (childNodesOf root)).

End Dom.

(** ** The pagination engine ([@/app/utils/pageCalculations]) *)

Module PageCalculations.
Import Dom.

Record DOMRect := mkRect { left : Z; top : Z; right : Z; bottom : Z }.

Definition width (r : DOMRect) : Z := right r - left r.
Definition height (r : DOMRect) : Z := bottom r - top r.

(** What the engine reads from the browser for one rendered layout: the
    measurement provider.  Nodes are named by their identifiers. *)
Record Layout := mkLayout {
  (** [el.getBoundingClientRect()], in viewport coordinates *)
  boundingClientRect : nat -> DOMRect;
  (** [root.scrollTop] and [root.scrollHeight] *)
  scrollTop : Z;
  scrollHeight : Z;
  (** the client rectangles of the range that starts with the contents of
      the block and ends in the text node at the offset:
      [r.selectNodeContents(block); r.setEnd(textNode, offset);
       r.getClientRects()] *)
  rangeClientRects : nat -> nat -> Z -> list DOMRect;
  (** [document.caretRangeFromPoint], when the browser has it: the start
      container and start offset of the range at a viewport point *)
  caretRangeFromPoint : option (Z -> Z -> option (nat * Z));
  (** [document.caretPositionFromPoint], when the browser has it *)
  docCaretPositionFromPoint : option (Z -> Z -> option (nat * Z))
}.

Inductive PageBreakAnchor :=
| BeforeElement (element : Node) (pageStartY : Z)
| TextOffset (textNode : Text) (offset : Z) (pageStartY : Z).

Definition pageStartYOf (a : PageBreakAnchor) : Z :=
  match a with
  | BeforeElement _ y => y
  | TextOffset _ _ y => y
  end.

Record PaginationResult := mkResult {
  res_pageHeightPx : Z;
  res_topMarginPx : Z;
  res_bottomMarginPx : Z;
  res_pageGapPx : Z;
  pageStridePx : Z;
  breaks : list PageBreakAnchor;
  contentHeightPx : Z
}.

Record PaginateOptions := mkOptions {
  pageHeightPx : Z;
  topMarginPx : option Z;
  bottomMarginPx : option Z;
  pageGapPx : option Z;
  blockSelector : option Selector;
  maxBinarySearchSteps : option nat
}.

Definition DEFAULT_BLOCK_SELECTOR : Selector :=
  ["p"; "h1"; "h2"; "h3"; "li"; "blockquote"; "pre"]%string.

(** A measured Y coordinate: a number or [Number.NEGATIVE_INFINITY]. *)
Inductive Measured := NegInfinity | Px (y : Z).

(** [m <= y] and [m > y] on measured coordinates. *)
Definition leY (m : Measured) (y : Z) : bool :=
  match m with
  | NegInfinity => true
  | Px v => v <=? y
  end.

Definition gtY (m : Measured) (y : Z) : bool :=
  match m with
  | NegInfinity => false
  | Px v => y <? v
  end.

Section Engine.

Variable L : Layout.
Variable root : Node.

Definition getRootLocalY (viewportY : Z) : Z :=
  let rootRect := boundingClientRect L (nodeId root) in
  viewportY - top rootRect + scrollTop L.

Definition getElementTopBottomY (el : Node) : Z * Z :=
  let r := boundingClientRect L (nodeId el) in
  (getRootLocalY (top r), getRootLocalY (bottom r)).

Definition isVisibleElement (el : Node) : bool :=
  let rect := boundingClientRect L (nodeId el) in
  (0 <? width rect) && (0 <? height rect).

(** The tree walker of [walkTextNodes]: it shows text nodes only, rejects
    the empty and the whitespace-only ones, and never yields the node it
    starts from. *)
Definition acceptNode (t : Text) : bool :=
  negb (match data t with [] => true | _ => false end || trimIsEmpty (data t)).

Definition walkTextNodes (n : Node) : list Text :=
  filter acceptNode (flat_map textsOf (childNodesOf n)).

Definition caretPositionFromPoint (viewportX viewportY : Z) : option (nat * Z) :=
  match caretRangeFromPoint L with
  | Some probe => probe viewportX viewportY
  | None =>
      match docCaretPositionFromPoint L with
      | Some probe => probe viewportX viewportY
      | None => None
      end
  end.

Definition getFirstTextDescendant (n : Node) : option Text :=
  hd_error (walkTextNodes n).

Definition getLastTextDescendant (n : Node) : option Text :=
  fold_left (fun _ t => Some t) (walkTextNodes n) None.

(** The loop [for (let j = i - 1; j >= 0; j--)] of
    [normalizeCaretToTextPosition]; [i] counts the siblings left to
    visit. *)
Fixpoint lastTextInPreviousSiblings (cs : list Node) (i : nat) : option (Text * Z) :=
  match i with
  | O => None
  | S j =>
      match nth_error cs j with
      | Some prev =>
          match getLastTextDescendant prev with
          | Some last => Some (last, jsLength (data last))
          | None => lastTextInPreviousSiblings cs j
          end
      | None => lastTextInPreviousSiblings cs j
      end
  end.

Definition normalizeCaretToTextPosition (block : Node) (caret : nat * Z)
  : option (Text * Z) :=
  match findNode (fst caret) block with
  | None => None
  | Some (TextNode t) =>
      Some (t, Z.max 0 (Z.min (snd caret) (jsLength (data t))))
  | Some (ElementNode _ _ cs) =>
      let childCount := Z.of_nat (List.length cs) in
      let i := Z.to_nat (Z.max 0 (Z.min (snd caret) (Z.max 0 (childCount - 1)))) in
      match
        match nth_error cs i with
        | Some child => getFirstTextDescendant child
        | None => None
        end
      with
      | Some first => Some (first, 0)
      | None => lastTextInPreviousSiblings cs i
      end
  end.

Definition measureBlockToTextOffsetBottomY (block : Node) (textNode : Text) (offset : Z)
  : Measured :=
  let rects :=
    rangeClientRects L (nodeId block) (textId textNode)
      (Z.max 0 (Z.min offset (jsLength (data textNode)))) in
  match rects with
  | [] => NegInfinity
  | r :: rs => Px (getRootLocalY (bottom (List.last rs r)))
  end.

(** The binary search of [binarySearchSplitOffset]; [n] is the number of
    steps left ([maxSteps - steps]). *)
Fixpoint searchLoop (block : Node) (textNode : Text) (boundaryY : Z)
         (n : nat) (lo hi best : Z) : Z :=
  match n with
  | O => best
  | S n' =>
      if lo <=? hi then
        let mid := Z.shiftr (lo + hi) 1 in
        let bottom := measureBlockToTextOffsetBottomY block textNode mid in
        if leY bottom boundaryY
        then searchLoop block textNode boundaryY n' (mid + 1) hi mid
        else searchLoop block textNode boundaryY n' lo (mid - 1) best
      else best
  end.

(** The offset the binary search settles on, before it is moved to a
    whitespace boundary. *)
Definition rawSplitOffset (block : Node) (textNode : Text) (boundaryY : Z)
           (maxSteps : nat) : Z :=
  searchLoop block textNode boundaryY maxSteps 0 (jsLength (data textNode)) 0.

Definition maxBacktrack : nat := 40.

(** The loop [while (refined > 0 && back < maxBacktrack)]; [n] is
    [maxBacktrack - back]. *)
Fixpoint backtrackLoop (s : jsString) (n : nat) (refined : Z) : Z :=
  match n with
  | O => refined
  | S n' =>
      if 0 <? refined then
        if testWhiteSpace (charAt s (refined - 1)) then refined
        else backtrackLoop s n' (refined - 1)
      else refined
  end.

Definition refineToWhiteSpace (s : jsString) (best : Z) : Z :=
  let refined := backtrackLoop s maxBacktrack best in
  if refined <=? 0 then best else refined.

Definition binarySearchSplitOffset (block : Node) (textNode : Text) (boundaryY : Z)
           (maxSteps : nat) : Z :=
  let firstCharBottom := measureBlockToTextOffsetBottomY block textNode 1 in
  if gtY firstCharBottom boundaryY then 0
  else refineToWhiteSpace (data textNode)
         (rawSplitOffset block textNode boundaryY maxSteps).

(** The fast path of [findSplitPointWithinBlock]: the caret probe at the
    boundary, accepted when it fits above the boundary at a positive
    offset. *)
Definition caretSplitPoint (block : Node) (boundaryY : Z) : option (Text * Z) :=
  let rootRect := boundingClientRect L (nodeId root) in
  let blockRect := boundingClientRect L (nodeId block) in
  let viewportY := top rootRect - scrollTop L + boundaryY - 1 in
  let viewportX :=
    Z.max (left blockRect + 2) (Z.min (right blockRect - 2) (right rootRect - 2)) in
  match caretPositionFromPoint viewportX viewportY with
  | Some caret =>
      match normalizeCaretToTextPosition block caret with
      | Some normalized =>
          let bottomY :=
            measureBlockToTextOffsetBottomY block (fst normalized) (snd normalized) in
          if leY bottomY boundaryY && (0 <? snd normalized)
          then Some normalized
          else None
      | None => None
      end
  | None => None
  end.

(** The fallback of [findSplitPointWithinBlock]: the loop over the text
    nodes of the block, with [previousTextNode] as its state. *)
Fixpoint scanTextNodes (block : Node) (boundaryY : Z) (maxSteps : nat)
         (texts : list Text) (previousTextNode : option Text) : option (Text * Z) :=
  match texts with
  | [] => None
  | textNode :: rest =>
      let endBottom :=
        measureBlockToTextOffsetBottomY block textNode (jsLength (data textNode)) in
      if leY endBottom boundaryY
      then scanTextNodes block boundaryY maxSteps rest (Some textNode)
      else
        let offset := binarySearchSplitOffset block textNode boundaryY maxSteps in
        if offset <=? 0 then
          match previousTextNode with
          | Some prev => Some (prev, jsLength (data prev))
          | None => None
          end
        else Some (textNode, offset)
  end.

Definition findSplitPointWithinBlock (block : Node) (boundaryY : Z) (maxSteps : nat)
  : option (Text * Z) :=
  match caretSplitPoint block boundaryY with
  | Some normalized => Some normalized
  | None => scanTextNodes block boundaryY maxSteps (walkTextNodes block) None
  end.

(** The state of the loop of [computePageBreaks]: [currentPageBottom] and
    the breaks pushed so far. *)
Definition LoopState : Type := Z * list PageBreakAnchor.

(** [while (top >= currentPageBottom)]: one unit of [fuel] per iteration;
    [None] when the fuel runs out before the loop ends. *)
Fixpoint skipPages (fuel : nat) (block : Node) (topY stride : Z) (st : LoopState)
  : option LoopState :=
  if topY >=? fst st then
    match fuel with
    | O => None
    | S fuel' =>
        skipPages fuel' block topY stride
          (fst st + stride, snd st ++ [BeforeElement block (fst st)])
    end
  else Some st.

(** The body of [for (let i = 0; i < blocks.length; i++)]. *)
Definition paginateBlock (fuel : nat) (stride : Z) (maxSteps : nat)
           (st : LoopState) (block : Node) : option LoopState :=
  let (topY, bottomY) := getElementTopBottomY block in
  if bottomY <=? fst st then Some st
  else
    match skipPages fuel block topY stride st with
    | None => None
    | Some st' =>
        let currentPageBottom := fst st' in
        match findSplitPointWithinBlock block currentPageBottom maxSteps with
        | Some split =>
            Some (currentPageBottom + stride,
                  snd st' ++ [TextOffset (fst split) (snd split) currentPageBottom])
        | None =>
            Some (currentPageBottom + stride,
                  snd st' ++ [BeforeElement block currentPageBottom])
        end
    end.

Fixpoint paginateBlocks (fuel : nat) (stride : Z) (maxSteps : nat)
         (blocks : list Node) (st : LoopState) : option LoopState :=
  match blocks with
  | [] => Some st
  | block :: rest =>
      match paginateBlock fuel stride maxSteps st block with
      | None => None
      | Some st' => paginateBlocks fuel stride maxSteps rest st'
      end
  end.

Definition orDefault {A} (o : option A) (d : A) : A :=
  match o with
  | Some v => v
  | None => d
  end.

Definition strideOf (options : PaginateOptions) : Z :=
  pageHeightPx options + orDefault (topMarginPx options) 0
  + orDefault (bottomMarginPx options) 0 + orDefault (pageGapPx options) 0.

Definition firstPageBottom (options : PaginateOptions) : Z :=
  orDefault (topMarginPx options) 0 + pageHeightPx options.

Definition blocksOf (options : PaginateOptions) : list Node :=
  filter isVisibleElement
    (querySelectorAll root (orDefault (blockSelector options) DEFAULT_BLOCK_SELECTOR)).

(** [computePageBreaks(root, options)].  [fuel] bounds the iterations of
    each [while] loop; the result is [None] when a loop does not end
    within it. *)
Definition computePageBreaks (fuel : nat) (options : PaginateOptions)
  : option PaginationResult :=
  let stride := strideOf options in
  let maxSteps := orDefault (maxBinarySearchSteps options) 18%nat in
  match
    paginateBlocks fuel stride maxSteps (blocksOf options) (firstPageBottom options, [])
  with
  | None => None
  | Some st =>
      Some {| res_pageHeightPx := pageHeightPx options;
              res_topMarginPx := orDefault (topMarginPx options) 0;
              res_bottomMarginPx := orDefault (bottomMarginPx options) 0;
              res_pageGapPx := orDefault (pageGapPx options) 0;
              pageStridePx := stride;
              breaks := snd st;
              contentHeightPx := scrollHeight L |}
  end.

(** "No text of the block fits above the boundary": every non-empty prefix
    of every text node of the block ends below it. *)
Definition nothingFits (block : Node) (boundaryY : Z) : Prop :=
  forall t off, In t (textsOf block) -> 0 < off <= jsLength (data t) ->
    gtY (measureBlockToTextOffsetBottomY block t off) boundaryY = true.

End Engine.

(** The boundaries of an arithmetic progression: [first], [first + stride],
    ... *)
Definition progression (first stride : Z) (n : nat) : list Z :=
  List.map (fun i => first + Z.of_nat i * stride) (seq 0 n).

(** The loop invariant: as many boundaries were passed as breaks were
    pushed, and the [i]-th break starts its page at the [i]-th boundary. *)
Definition wellPaged (first stride : Z) (st : LoopState) : Prop :=
  fst st = first + Z.of_nat (List.length (snd st)) * stride
  /\ List.map pageStartYOf (snd st) = progression first stride (List.length (snd st)).

(** A break belongs to a block: it is placed before the block itself, or
    inside one of its text nodes. *)
Definition anchorIn (block : Node) (a : PageBreakAnchor) : Prop :=
  match a with
  | BeforeElement e _ => e = block
  | TextOffset t off _ => In t (textsOf block) /\ 0 <= off <= jsLength (data t)
  end.

End PageCalculations.

(** ** The break projection layer (the [Pagination] editor extension) *)

Module Pagination.

Record PaginationMeta := mkMeta {
  breakPositions : list Z;
  topSpacerPx : Z;
  betweenSpacerPx : Z;
  bottomSpacerPx : Z
}.

(** The editor document, as far as the plugin reads it:
    [doc.content.size]. *)
Record Doc := mkDoc { contentSize : Z }.

(** A position mapping of the editor: [mapResult pos assoc] gives the new
    position and whether the content around the old one was deleted. *)
Record Mapping := mkMapping { mapResult : Z -> Z -> Z * bool }.

(** A transaction: the slot of its metadata that belongs to
    [paginationPluginKey], its mapping and the document it leads to. *)
Record Transaction := mkTr {
  getMeta : option PaginationMeta;
  mapping : Mapping;
  doc : Doc
}.

Definition setMeta (tr : Transaction) (meta : PaginationMeta) : Transaction :=
  {| getMeta := Some meta; mapping := mapping tr; doc := doc tr |}.

Record EditorState := mkState { stateDoc : Doc }.

(** A widget decoration: its position, its [side], and the element it
    renders (the class name and the value of [--pm-spacer-height], in
    px). *)
Record Decoration := widget {
  pos : Z;
  className : string;
  spacerHeight : Z;
  side : Z
}.

Module DecorationSet.

(** Modelled from the spec: the editor library's [DecorationSet] is not
    under src/.  A set is the sequence of its spacers; [create] builds it
    from the decorations it is given ("construct a fresh spacer set"),
    and [map] moves every spacer through the position mapping, keeps its
    height and the relative order, and drops it when the mapping deletes
    it ("remap all existing spacers' positions through the transaction's
    position-mapping function, preserving their heights and relative
    order, dropping any that the mapping deletes"). *)
Definition t := list Decoration.

Definition empty : t := [].

Definition create (d : Doc) (decorations : list Decoration) : t := decorations.

Definition mapWidget (m : Mapping) (w : Decoration) : option Decoration :=
  let (p, deleted) := mapResult m (pos w) (if side w <? 0 then -1 else 1) in
  if deleted then None
  else Some {| pos := p; className := className w;
               spacerHeight := spacerHeight w; side := side w |}.

Fixpoint map (m : Mapping) (d : Doc) (set : t) : t :=
  match set with
  | [] => []
  | w :: rest =>
      match mapWidget m w with
      | Some w' => w' :: map m d rest
      | None => map m d rest
      end
  end.

End DecorationSet.

Record PluginState := mkPluginState { decorations : DecorationSet.t }.

(** [Array.prototype.filter] with the callback's three arguments: the
    element, its index and the array itself. *)
Fixpoint filterFrom {A} (f : A -> nat -> list A -> bool) (arr : list A)
         (i : nat) (rest : list A) : list A :=
  match rest with
  | [] => []
  | p :: rest' =>
      if f p i arr then p :: filterFrom f arr (S i) rest'
      else filterFrom f arr (S i) rest'
  end.

Definition arrayFilter {A} (f : A -> nat -> list A -> bool) (arr : list A) : list A :=
  filterFrom f arr 0 arr.

(** [(p, i, arr) => i === 0 || p !== arr[i - 1]] *)
Definition differsFromPrevious (p : Z) (i : nat) (arr : list Z) : bool :=
  Nat.eqb i 0 ||
  match nth_error arr (i - 1) with
  | Some q => negb (p =? q)
  | None => true
  end.

Definition clampPositions (size : Z) (positions : list Z) : list Z :=
  arrayFilter differsFromPrevious
    (List.map (fun p => Z.max 0 (Z.min p size)) positions).

Definition init : PluginState := {| decorations := DecorationSet.empty |}.

(** [state.apply(tr, prev, _oldState, newState)] of the plugin. *)
Definition apply (tr : Transaction) (prev : PluginState)
           (oldState newState : EditorState) : PluginState :=
  let mapped := DecorationSet.map (mapping tr) (doc tr) (decorations prev) in
  match getMeta tr with
  | None => {| decorations := mapped |}
  | Some meta =>
      let size := contentSize (stateDoc newState) in
      let clamped := clampPositions size (breakPositions meta) in
      let decos0 : list Decoration := [] in
      let decos1 :=
        if 0 <? topSpacerPx meta
        then decos0 ++ [widget 0 "pm-page-top-spacer" (topSpacerPx meta) (-1)]
        else decos0 in
      let decos2 :=
        if 0 <? bottomSpacerPx meta
        then decos1 ++ [widget size "pm-page-bottom-spacer" (bottomSpacerPx meta) 1]
        else decos1 in
      let decos3 :=
        fold_left
          (fun acc p =>
             if betweenSpacerPx meta <=? 0 then acc
             else acc ++ [widget p "pm-page-break" (betweenSpacerPx meta) (-1)])
          clamped decos2 in
      {| decorations := DecorationSet.create (stateDoc newState) decos3 |}
  end.

(** What a command is handed: the transaction under construction and
    whether a [dispatch] function is present (a dry run has none). *)
Record CommandProps := mkProps { tr : Transaction; dispatch : bool }.

(** What a command leaves behind: its return value, the transaction after
    [setMeta], and the transaction handed to [dispatch], if any. *)
Record CommandOutcome := mkOutcome {
  returned : bool;
  trAfter : Transaction;
  dispatched : option Transaction
}.

Definition setPaginationBreaks (positions : list Z) (topPx betweenPx bottomPx : Z)
           (props : CommandProps) : CommandOutcome :=
  let meta := {| breakPositions := positions; topSpacerPx := topPx;
                 betweenSpacerPx := betweenPx; bottomSpacerPx := bottomPx |} in
  let tr' := setMeta (tr props) meta in
  {| returned := true; trAfter := tr';
     dispatched := if dispatch props then Some tr' else None |}.

Definition clearPaginationBreaks (props : CommandProps) : CommandOutcome :=
  let meta := {| breakPositions := []; topSpacerPx := 0;
                 betweenSpacerPx := 0; bottomSpacerPx := 0 |} in
  let tr' := setMeta (tr props) meta in
  {| returned := true; trAfter := tr';
     dispatched := if dispatch props then Some tr' else None |}.

(** The spacer set as the specification words it: clamp every position
    into [[0, documentLength]], drop a position equal to the one just
    before it, and place the top spacer, the bottom spacer and one spacer
    per break, each only when its height is positive. *)
Fixpoint dedupAdjacent (l : list Z) : list Z :=
  match l with
  | [] => []
  | p :: rest =>
      match rest with
      | [] => [p]
      | q :: _ => if p =? q then dedupAdjacent rest else p :: dedupAdjacent rest
      end
  end.

(** The same, going left to right with the previous position in hand. *)
Fixpoint dedupAfter (previous : option Z) (l : list Z) : list Z :=
  match l with
  | [] => []
  | p :: rest =>
      match previous with
      | Some q => if p =? q then dedupAfter (Some p) rest
                  else p :: dedupAfter (Some p) rest
      | None => p :: dedupAfter (Some p) rest
      end
  end.

(** The spacers a mapping keeps. *)
Definition survives (m : Mapping) (w : Decoration) : bool :=
  negb (snd (mapResult m (pos w) (if side w <? 0 then -1 else 1))).

(** A spacer after the mapping: the same element on the same side, at the
    position the mapping gives. *)
Definition movedBy (m : Mapping) (old new : Decoration) : Prop :=
  className new = className old
  /\ spacerHeight new = spacerHeight old
  /\ side new = side old
  /\ mapResult m (pos old) (if side old <? 0 then -1 else 1) = (pos new, false).

Definition clampInto (size p : Z) : Z :=
  if p <? 0 then 0 else if size <? p then size else p.

Definition specSpacers (size : Z) (meta : PaginationMeta) : list Decoration :=
  (if 0 <? topSpacerPx meta
   then [widget 0 "pm-page-top-spacer" (topSpacerPx meta) (-1)] else [])
  ++ (if 0 <? bottomSpacerPx meta
      then [widget size "pm-page-bottom-spacer" (bottomSpacerPx meta) 1] else [])
  ++ (if 0 <? betweenSpacerPx meta
      then List.map (fun p => widget p "pm-page-break" (betweenSpacerPx meta) (-1))
             (dedupAdjacent (List.map (clampInto size) (breakPositions meta)))
      else []).

End Pagination.

(** ** The reactive scheduler (the [usePagination] hook) *)

Module UsePagination.

(** The browser's side of the hook: the clock, the pending timeouts (handle
    and due time) and the pending animation-frame requests. *)
Record Browser := mkBrowser {
  now : Z;
  nextHandle : nat;
  timeouts : list (nat * Z);
  animationFrames : list nat
}.

(** The hook's side: its three refs, and the times at which
    [computePageBreaks] ran (latest first). *)
Record Hook := mkHook {
  destroyedRef : bool;
  timeoutIdRef : option nat;
  rafIdRef : option nat;
  computedAt : list Z
}.

Definition World : Type := Browser * Hook.

Definition setTimeout (b : Browser) (delay : Z) : nat * Browser :=
  (nextHandle b,
   {| now := now b; nextHandle := S (nextHandle b);
      timeouts := timeouts b ++ [(nextHandle b, now b + delay)];
      animationFrames := animationFrames b |}).

Definition clearTimeout (b : Browser) (h : nat) : Browser :=
  {| now := now b; nextHandle := nextHandle b;
     timeouts := filter (fun e => negb (Nat.eqb (fst e) h)) (timeouts b);
     animationFrames := animationFrames b |}.

Definition requestAnimationFrame (b : Browser) : nat * Browser :=
  (nextHandle b,
   {| now := now b; nextHandle := S (nextHandle b);
      timeouts := timeouts b;
      animationFrames := animationFrames b ++ [nextHandle b] |}).

Definition cancelAnimationFrame (b : Browser) (h : nat) : Browser :=
  {| now := now b; nextHandle := nextHandle b;
     timeouts := timeouts b;
     animationFrames := filter (fun e => negb (Nat.eqb e h)) (animationFrames b) |}.

Definition withTimeoutId (k : Hook) (v : option nat) : Hook :=
  {| destroyedRef := destroyedRef k; timeoutIdRef := v;
     rafIdRef := rafIdRef k; computedAt := computedAt k |}.

Definition withRafId (k : Hook) (v : option nat) : Hook :=
  {| destroyedRef := destroyedRef k; timeoutIdRef := timeoutIdRef k;
     rafIdRef := v; computedAt := computedAt k |}.

Definition withDestroyed (k : Hook) (v : bool) : Hook :=
  {| destroyedRef := v; timeoutIdRef := timeoutIdRef k;
     rafIdRef := rafIdRef k; computedAt := computedAt k |}.

Section Hook.

(** Whether [root] is non-null, and the [debounceMs] option. *)
Variable hasRoot : bool.
Variable debounceMs : Z.

Definition recomputeNow (w : World) : World :=
  let (b, k) := w in
  if negb hasRoot then w
  else if destroyedRef k then w
  else
    let b1 :=
      match rafIdRef k with
      | Some h => cancelAnimationFrame b h
      | None => b
      end in
    let (h', b2) := requestAnimationFrame b1 in
    (b2, withRafId k (Some h')).

(** The callback handed to [requestAnimationFrame]. *)
Definition frameCallback (w : World) : World :=
  let (b, k) := w in
  let k1 := withRafId k None in
  if destroyedRef k1 then (b, k1)
  else
    (b, {| destroyedRef := destroyedRef k1; timeoutIdRef := timeoutIdRef k1;
           rafIdRef := rafIdRef k1; computedAt := now b :: computedAt k1 |}).

Definition scheduleRecompute (w : World) : World :=
  let (b, k) := w in
  if negb hasRoot then w
  else if destroyedRef k then w
  else
    let b1 :=
      match timeoutIdRef k with
      | Some h => clearTimeout b h
      | None => b
      end in
    let (h', b2) := setTimeout b1 debounceMs in
    (b2, withTimeoutId k (Some h')).

(** The callback handed to [setTimeout]. *)
Definition timeoutCallback (w : World) : World :=
  let (b, k) := w in
  recomputeNow (b, withTimeoutId k None).

(** The effect: subscribe and take the initial measurement. *)
Definition effectMount (w : World) : World :=
  let (b, k) := w in
  let w1 := (b, withDestroyed k false) in
  if negb hasRoot then w1 else scheduleRecompute w1.

(** The effect's cleanup. *)
Definition effectCleanup (w : World) : World :=
  let (b, k) := w in
  let k1 := withDestroyed k true in
  let (b2, k2) :=
    match timeoutIdRef k1 with
    | Some h => (clearTimeout b h, withTimeoutId k1 None)
    | None => (b, k1)
    end in
  match rafIdRef k2 with
  | Some h => (cancelAnimationFrame b2 h, withRafId k2 None)
  | None => (b2, k2)
  end.

(** What can happen to a mounted hook: a change event (an editor update
    or a resize of the root), time passing, the browser firing a due
    timeout or a requested animation frame, the teardown, and the effect
    running again. *)
Inductive Event :=
| Change
| Elapse (dt : Z)
| TimeoutFires (h : nat)
| FrameFires (h : nat)
| Teardown
| Mount.

Definition dueTimeOf (b : Browser) (h : nat) : option Z :=
  match find (fun e => Nat.eqb (fst e) h) (timeouts b) with
  | Some e => Some (snd e)
  | None => None
  end.

(** One event; [None] when the browser cannot produce it in this world
    (time running backwards, a timeout that is not pending or not due, a
    frame nobody requested). *)
Definition step (w : World) (e : Event) : option World :=
  let (b, k) := w in
  match e with
  | Change => Some (scheduleRecompute w)
  | Elapse dt =>
      if dt <? 0 then None
      else Some ({| now := now b + dt; nextHandle := nextHandle b;
                    timeouts := timeouts b;
                    animationFrames := animationFrames b |}, k)
  | TimeoutFires h =>
      match dueTimeOf b h with
      | Some due =>
          if due <=? now b then Some (timeoutCallback (clearTimeout b h, k))
          else None
      | None => None
      end
  | FrameFires h =>
      if existsb (Nat.eqb h) (animationFrames b)
      then Some (frameCallback (cancelAnimationFrame b h, k))
      else None
  | Teardown => Some (effectCleanup w)
  | Mount => Some (effectMount w)
  end.

Fixpoint run (w : World) (trace : list Event) : option World :=
  match trace with
  | [] => Some w
  | e :: rest =>
      match step w e with
      | Some w' => run w' rest
      | None => None
      end
  end.

(** Events of the browser alone: no change event and no teardown. *)
Definition browserOnly (e : Event) : bool :=
  match e with
  | Elapse _ | TimeoutFires _ | FrameFires _ => true
  | Change | Teardown | Mount => false
  end.

Definition elapsedBy (e : Event) : Z :=
  match e with
  | Elapse dt => dt
  | _ => 0
  end.

Definition elapsed (trace : list Event) : Z :=
  fold_right (fun e acc => elapsedBy e + acc) 0 trace.

(** Five change events with browser activity [q1] .. [q4] between them,
    followed by [rest]. *)
Definition burstOfFive (q1 q2 q3 q4 rest : list Event) : list Event :=
  Change :: q1 ++ Change :: q2 ++ Change :: q3 ++ Change :: q4 ++ Change :: rest.

(** A hook at rest: nothing pending, nothing computed yet. *)
Definition idle (w : World) : Prop :=
  timeouts (fst w) = [] /\ animationFrames (fst w) = []
  /\ destroyedRef (snd w) = false /\ timeoutIdRef (snd w) = None
  /\ rafIdRef (snd w) = None /\ computedAt (snd w) = [].

(** At most one timeout and one frame request are pending, and they are
    the ones the refs name. *)
Definition coherent (w : World) : Prop :=
  match timeoutIdRef (snd w) with
  | Some h => exists due, timeouts (fst w) = [(h, due)]
  | None => timeouts (fst w) = []
  end
  /\ match rafIdRef (snd w) with
     | Some h => animationFrames (fst w) = [h]
     | None => animationFrames (fst w) = []
     end.

(** The phases of one recomputation that is to run no earlier than [due]:
    its debounce timer is pending; the timer fired at or after [due] and the
    animation frame is requested; [computePageBreaks] ran once, at or after
    [due], and nothing is pending. *)
Definition pendingTimer (w : World) (due : Z) : Prop :=
  exists h,
    timeouts (fst w) = [(h, due)] /\ timeoutIdRef (snd w) = Some h
    /\ animationFrames (fst w) = [] /\ rafIdRef (snd w) = None
    /\ destroyedRef (snd w) = false /\ computedAt (snd w) = [].

Definition measuring (w : World) (due : Z) : Prop :=
  exists h,
    timeouts (fst w) = [] /\ timeoutIdRef (snd w) = None
    /\ animationFrames (fst w) = [h] /\ rafIdRef (snd w) = Some h
    /\ destroyedRef (snd w) = false /\ computedAt (snd w) = []
    /\ due <= now (fst w).

Definition settled (w : World) (due : Z) : Prop :=
  exists t,
    timeouts (fst w) = [] /\ timeoutIdRef (snd w) = None
    /\ animationFrames (fst w) = [] /\ rafIdRef (snd w) = None
    /\ destroyedRef (snd w) = false /\ computedAt (snd w) = [t]
    /\ due <= t <= now (fst w).

Definition oneRecomputation (w : World) (due : Z) : Prop :=
  pendingTimer w due \/ measuring w due \/ settled w due.

End Hook.

End UsePagination.

(** ** Concrete documents and layouts *)

Module Examples.
Import Dom PageCalculations.

(** A layout given by the rectangles of its elements and by the line boxes of
    each block's text: [perLine] code units to a line, lines [lineHeight]
    tall, stacked from the top of the block.  The root is not scrolled and no
    caret probe is available. *)
Definition rectOf (rects : list (nat * DOMRect)) (id : nat) : DOMRect :=
  match find (fun e => Nat.eqb (fst e) id) rects with
  | Some e => snd e
  | None => mkRect 0 0 0 0
  end.

Definition lineBoxes (rects : list (nat * DOMRect)) (perLine lineHeight : Z)
           (block text : nat) (offset : Z) : list DOMRect :=
  let r := rectOf rects block in
  List.map
    (fun i => mkRect (left r) (top r + lineHeight * Z.of_nat i)
                     (right r) (top r + lineHeight * (Z.of_nat i + 1)))
    (seq 0 (Z.to_nat ((offset + perLine - 1) / perLine))).

Definition linesLayout (rects : list (nat * DOMRect)) (height perLine lineHeight : Z)
  : Layout :=
  {| boundingClientRect := rectOf rects;
     scrollTop := 0;
     scrollHeight := height;
     rangeClientRects := lineBoxes rects perLine lineHeight;
     caretRangeFromPoint := None;
     docCaretPositionFromPoint := None |}.

Definition paragraph (id : nat) (children : list Node) : Node :=
  ElementNode id "p" children.

Definition image (id : nat) : Node := ElementNode id "img" [].

Definition letterOptions : PaginateOptions :=
  {| pageHeightPx := 864; topMarginPx := None; bottomMarginPx := None;
     pageGapPx := None; blockSelector := None; maxBinarySearchSteps := None |}.

(** Scenario A: three paragraphs of 300px each, stacked from the top. *)
Definition threeRects : list (nat * DOMRect) :=
  [ (0%nat, mkRect 0 0 624 900);
    (1%nat, mkRect 0 0 624 300);
    (2%nat, mkRect 0 300 624 600);
    (3%nat, mkRect 0 600 624 900) ].

Definition words (id : nat) : Text :=
  mkText id (ofString "aaaa bbbb cccc dddd eeee ffff ").

Definition textParagraphs : Node :=
  ElementNode 0 "div"
    [ paragraph 1 [TextNode (words 11)];
      paragraph 2 [TextNode (words 12)];
      paragraph 3 [TextNode (words 13)] ].

Definition textLayout : Layout := linesLayout threeRects 900 10 100.

(** The same three paragraphs, each holding an image and no text. *)
Definition imageParagraphs : Node :=
  ElementNode 0 "div"
    [ paragraph 1 [image 11]; paragraph 2 [image 12]; paragraph 3 [image 13] ].

(** A run of sixty letters without whitespace, six lines of ten; the first
    five lines end at Y = 100. *)
Definition longWord : Text := mkText 11 (repeat 97%N 60).

Definition longWordBlock : Node := paragraph 1 [TextNode longWord].

Definition longWordRoot : Node := ElementNode 0 "div" [longWordBlock].

Definition longWordLayout : Layout :=
  linesLayout [ (0%nat, mkRect 0 0 624 120); (1%nat, mkRect 0 0 624 120) ] 120 10 20.

(** A figure of 250px that is not a pagination unit, followed by a paragraph
    of two lines; pages of 100px. *)
Definition figureThenParagraph : Node :=
  ElementNode 0 "div"
    [ ElementNode 1 "figure" [image 10];
      paragraph 2 [TextNode (mkText 20 (ofString "aaaa bbbb cccc dddd "))] ].

Definition figureRects : list (nat * DOMRect) :=
  [ (0%nat, mkRect 0 0 624 350);
    (1%nat, mkRect 0 0 624 250);
    (2%nat, mkRect 0 250 624 350) ].

Definition figureLayout : Layout := linesLayout figureRects 350 10 50.

Definition smallPages : PaginateOptions :=
  {| pageHeightPx := 100; topMarginPx := None; bottomMarginPx := None;
     pageGapPx := None; blockSelector := None; maxBinarySearchSteps := None |}.

(** A figure of 900px followed by a single pagination unit, 900px tall, that
    holds an image and no text. *)
Definition tallUnit : Node := ElementNode 2 "pre" [image 20].




(** The same unit alone, from the top of the document. *)
Definition tallUnitAlone : Node := ElementNode 0 "div" [tallUnit].

Definition tallAloneLayout : Layout :=
  linesLayout [ (0%nat, mkRect 0 0 624 900); (2%nat, mkRect 0 0 624 900) ] 900 10 20.

(** A block of two text nodes: a first line that fits above Y = 100 and a
    second node, in bold, that starts on the line below. *)
Definition twoRuns : Node :=
  paragraph 1
    [ TextNode (mkText 10 (ofString "aaaa bbbb "));
      ElementNode 11 "strong" [TextNode (mkText 12 (ofString "cccc dddd "))] ].

Definition twoRunsRoot : Node := ElementNode 0 "div" [twoRuns].

Definition twoRunsRanges (block text : nat) (offset : Z) : list DOMRect :=
  if Nat.eqb text 10 then
    if offset <=? 0 then [] else [mkRect 0 0 624 100]
  else
    if offset <=? 0 then [mkRect 0 0 624 100]
    else [mkRect 0 0 624 100; mkRect 0 100 624 200].

Definition twoRunsLayout : Layout :=
  {| boundingClientRect :=
       rectOf [ (0%nat, mkRect 0 0 624 200); (1%nat, mkRect 0 0 624 200) ];
     scrollTop := 0;
     scrollHeight := 200;
     rangeClientRects := twoRunsRanges;
     caretRangeFromPoint := None;
     docCaretPositionFromPoint := None |}.

(** Four paragraphs of 288px each: the fourth starts exactly at the first
    boundary and fits on the second page. *)
Definition fourParagraphs : Node :=
  ElementNode 0 "div"
    [ paragraph 1 [TextNode (words 11)];
      paragraph 2 [TextNode (words 12)];
      paragraph 3 [TextNode (words 13)];
      paragraph 4 [TextNode (words 14)] ].

Definition fourRects : list (nat * DOMRect) :=
  [ (0%nat, mkRect 0 0 624 1152);
    (1%nat, mkRect 0 0 624 288);
    (2%nat, mkRect 0 288 624 576);
    (3%nat, mkRect 0 576 624 864);
    (4%nat, mkRect 0 864 624 1152) ].

Definition fourLayout : Layout := linesLayout fourRects 1152 10 96.

(** A paragraph of 200px: one line of text, 50px tall, and an image below
    it. *)
Definition captioned : Node :=
  paragraph 1 [TextNode (mkText 10 (ofString "aaaa bbbb ")); image 11].

Definition captionedRoot : Node := ElementNode 0 "div" [captioned].

Definition captionedLayout : Layout :=
  linesLayout [ (0%nat, mkRect 0 0 624 200); (1%nat, mkRect 0 0 624 200) ] 200 100 50.

(** A document of size 30 and an instruction with repeated and out-of-range
    positions. *)
Definition someDoc : Pagination.Doc := Pagination.mkDoc 30.

Definition someMeta : Pagination.PaginationMeta :=
  Pagination.mkMeta [5; 5; -3; 12; 12; 40; 12] 96 216 96.

(** The mapping of a transaction that changes nothing. *)
Definition noChange : Pagination.Mapping :=
  Pagination.mkMapping (fun p _ => (p, false)).

(** The mapping of a transaction that deletes the range from 3 to 8. *)
Definition deleteRange : Pagination.Mapping :=
  Pagination.mkMapping
    (fun p _ =>
       if p <=? 3 then (p, false)
       else if p <? 8 then (3, true)
       else (p - 5, false)).

Definition setBreaksTr : Pagination.Transaction :=
  Pagination.mkTr (Some someMeta) noChange someDoc.

Definition deletionTr : Pagination.Transaction :=
  Pagination.mkTr None deleteRange (Pagination.mkDoc 25).

(** A hook at rest at time 1000, and a burst of five change events within
    10ms, followed by the timer and the frame the browser then fires. *)
Definition restingWorld : UsePagination.World :=
  (UsePagination.mkBrowser 1000 0 [] [], UsePagination.mkHook false None None []).

Definition fiveChanges : list UsePagination.Event :=
  UsePagination.burstOfFive
    [UsePagination.Elapse 2] [UsePagination.Elapse 3]
    [UsePagination.Elapse 2] [UsePagination.Elapse 3]
    [UsePagination.Elapse 49; UsePagination.Elapse 4;
     UsePagination.TimeoutFires 4; UsePagination.Elapse 9;
     UsePagination.FrameFires 5; UsePagination.Elapse 100].

End Examples.

(** ** The editor component ([TiptapEditor]) *)

Module Editor.
Import Dom PageCalculations.

(** [positions.sort((x, y) => x - y)]: the numbers in ascending order. *)
Fixpoint insertSorted (x : Z) (l : list Z) : list Z :=
  match l with
  | [] => [x]
  | y :: rest => if x <=? y then x :: l else y :: insertSorted x rest
  end.

Fixpoint sortNumbers (l : list Z) : list Z :=
  match l with
  | [] => []
  | x :: rest => insertSorted x (sortNumbers rest)
  end.

Section Anchors.

(** [editor.view.posAtDOM(node, offset)] for the node with the given
    identifier; [None] when it throws. *)
Variable posAtDOM : nat -> Z -> option Z.

(** The body of the [try] in [anchorsToDocPositions]. *)
Definition anchorPosition (a : PageBreakAnchor) : option Z :=
  match a with
  | TextOffset textNode offset _ => posAtDOM (textId textNode) offset
  | BeforeElement element _ => posAtDOM (nodeId element) 0
  end.

(** The loop over the anchors: a position is pushed, an anchor that cannot
    be mapped is ignored. *)
Fixpoint collectPositions (anchors : list PageBreakAnchor) (positions : list Z)
  : list Z :=
  match anchors with
  | [] => positions
  | a :: rest =>
      match anchorPosition a with
      | Some pos => collectPositions rest (positions ++ [pos])
      | None => collectPositions rest positions
      end
  end.

(** [anchorsToDocPositions(anchors)]; [hasView] says whether [editor?.view]
    is there. *)
Definition anchorsToDocPositions (hasView : bool) (anchors : list PageBreakAnchor)
  : list Z :=
  if negb hasView then []
  else
    let positions := sortNumbers (collectPositions anchors []) in
    Pagination.arrayFilter Pagination.differsFromPrevious positions.

End Anchors.

End Editor.

(** ** The page chrome ([PageContainer] and [PageBreakIndicator]) *)

Module PageChrome.
Import PageCalculations.

Definition PAGE_PAPER_WIDTH_PX : Z := 816.
Definition PAGE_PAPER_HEIGHT_PX : Z := 1056.
Definition PAGE_MARGIN_PX : Z := 96.
Definition PAGE_GAP_PX : Z := 24.
Definition PAGE_CONTENT_WIDTH_PX : Z := 624.
Definition PAGE_CONTENT_HEIGHT_PX : Z := 864.

(** [pagination?.pageStridePx ?? (PAGE_PAPER_HEIGHT_PX + PAGE_GAP_PX)] *)
Definition containerStridePx (pagination : option PaginationResult) : Z :=
  match pagination with
  | Some r => pageStridePx r
  | None => PAGE_PAPER_HEIGHT_PX + PAGE_GAP_PX
  end.

(** [pagination ? Math.max(1, pagination.breaks.length + 1) : 1] *)
Definition pageCount (pagination : option PaginationResult) : Z :=
  match pagination with
  | Some r => Z.max 1 (Z.of_nat (List.length (breaks r)) + 1)
  | None => 1
  end.

Definition overlayHeightPx (pagination : option PaginationResult) : Z :=
  Z.max PAGE_PAPER_HEIGHT_PX (pageCount pagination * containerStridePx pagination).

(** The [top] of the page paper of index [idx]. *)
Definition paperTop (pagination : option PaginationResult) (idx : Z) : Z :=
  idx * containerStridePx pagination.

(** [Math.round(x)] at the quotient of two integers [a / b], [b] positive,
    taken exactly: the nearest integer, halves going up. *)
Definition roundQuotient (a b : Z) : Z := (2 * a + b) / (2 * b).

(** The page number [PageBreakIndicator] prints at a break:
    [Math.round(b.pageStartY / pageHeightPx) + 1]. *)
Definition pageNumber (pageStartY pageHeightPx : Z) : Z :=
  roundQuotient pageStartY pageHeightPx + 1.

(** The labels of the indicator, break by break.  [PageContainer] hands the
    indicator the stride as its [pageHeightPx]. *)
Definition indicatorLabels (r : PaginationResult) : list Z :=
  List.map (fun a => pageNumber (pageStartYOf a) (pageStridePx r)) (breaks r).

End PageChrome.

(** ** Predicates used in the statements below *)

Module Conditions.
Import Dom PageCalculations UsePagination.

(** An offset of a text node fits: the content of the block up to it ends at
    or above the boundary. *)
Definition fits (L : Layout) (root block : Node) (t : Text) (boundaryY offset : Z)
  : bool :=
  leY (measureBlockToTextOffsetBottomY L root block t offset) boundaryY.

(** The layout grows downwards along a text node: when an offset fits, so
    does every offset before it. *)
Definition growsDownwards (L : Layout) (root block : Node) (t : Text) (boundaryY : Z)
  : Prop :=
  forall off off', 0 <= off <= off' ->
    fits L root block t boundaryY off' = true ->
    fits L root block t boundaryY off = true.

(** No two neighbours of the list are equal. *)
Fixpoint noAdjacentRepeat (l : list Z) : Prop :=
  match l with
  | [] => True
  | p :: rest =>
      match rest with
      | [] => True
      | q :: _ => p <> q /\ noAdjacentRepeat rest
      end
  end.

(** The recomputations a hook has run or still has under way. *)
Definition load (w : World) : nat :=
  (List.length (computedAt (snd w)) + List.length (timeouts (fst w))
   + List.length (animationFrames (fst w)))%nat.

(** The events that ask for a recomputation. *)
Definition triggers (e : Event) : nat :=
  match e with
  | Change | Mount => 1
  | _ => 0
  end.

Definition triggerCount (trace : list Event) : nat :=
  fold_right (fun e acc => (triggers e + acc)%nat) 0%nat trace.

Definition noMount (e : Event) : bool :=
  match e with
  | Mount => false
  | _ => true
  end.

End Conditions.

(** ** More documents and layouts *)

Module MoreExamples.
Import Dom PageCalculations Examples.

(** The app's page geometry: US Letter at 96 DPI with one-inch margins and a
    gap of 24px between the papers. *)
Definition appOptions : PaginateOptions :=
  {| pageHeightPx := 864; topMarginPx := Some 96; bottomMarginPx := Some 96;
     pageGapPx := Some 24; blockSelector := None; maxBinarySearchSteps := None |}.

(** A page geometry without height. *)
Definition flatOptions : PaginateOptions :=
  {| pageHeightPx := 0; topMarginPx := None; bottomMarginPx := None;
     pageGapPx := None; blockSelector := None; maxBinarySearchSteps := None |}.

(** The first two paragraphs of scenario A alone. *)
Definition twoParagraphs : Node :=
  ElementNode 0 "div"
    [ paragraph 1 [TextNode (words 11)]; paragraph 2 [TextNode (words 12)] ].

(** A result of the engine under the app's geometry with one break. *)
Definition oneBreakResult : PaginationResult :=
  {| res_pageHeightPx := 864; res_topMarginPx := 96; res_bottomMarginPx := 96;
     res_pageGapPx := 24; pageStridePx := 1080;
     breaks := [BeforeElement (image 1) 960]; contentHeightPx := 1500 |}.

(** A caret probe that answers with the middle of the third paragraph's
    text. *)
Definition probedLayout : Layout :=
  {| boundingClientRect := rectOf threeRects;
     scrollTop := 0;
     scrollHeight := 900;
     rangeClientRects := lineBoxes threeRects 10 100;
     caretRangeFromPoint := Some (fun _ _ => Some (13%nat, 15));
     docCaretPositionFromPoint := None |}.

(** The editor's positions of the nodes of [figureThenParagraph]: the figure
    at 0, the paragraph at 3, its text from 4; nothing else can be mapped. *)
Definition figurePositions (id : nat) (offset : Z) : option Z :=
  match id with
  | 2%nat => Some 3
  | 20%nat => Some (4 + offset)
  | _ => None
  end.





End MoreExamples.

(** ** The loop of the engine in double precision *)

Module Doubles.
Import Dom.

(** The loop of [computePageBreaks] with its numbers as the source has them,
    IEEE doubles.  What the loop reads of the rendered layout is a record of
    functions: the visible blocks in document order, [getElementTopBottomY]
    of a block, [findSplitPointWithinBlock] of a block at a boundary, and
    [root.scrollHeight]. *)
Record Geometry := mkGeometry {
  blocks : list Node;
  elementTopBottomY : Node -> float * float;
  findSplitPoint : Node -> float -> option (Text * Z);
  scrollHeight : float
}.

Inductive PageBreakAnchor :=
| BeforeElement (element : Node) (pageStartY : float)
| TextOffset (textNode : Text) (offset : Z) (pageStartY : float).

Definition pageStartYOf (a : PageBreakAnchor) : float :=
  match a with
  | BeforeElement _ y => y
  | TextOffset _ _ y => y
  end.

Record PaginationResult := mkResult {
  res_pageHeightPx : float;
  res_topMarginPx : float;
  res_bottomMarginPx : float;
  res_pageGapPx : float;
  pageStridePx : float;
  breaks : list PageBreakAnchor;
  contentHeightPx : float
}.

Record PaginateOptions := mkOptions {
  pageHeightPx : float;
  topMarginPx : option float;
  bottomMarginPx : option float;
  pageGapPx : option float
}.

Definition orZero (o : option float) : float :=
  match o with
  | Some v => v
  | None => 0%float
  end.

Definition LoopState : Type := float * list PageBreakAnchor.

(** [while (top >= currentPageBottom)], one unit of [fuel] per iteration. *)
Fixpoint skipPages (fuel : nat) (block : Node) (topY stride : float) (st : LoopState)
  : option LoopState :=
  if PrimFloat.leb (fst st) topY then
    match fuel with
    | O => None
    | S fuel' =>
        skipPages fuel' block topY stride
          (PrimFloat.add (fst st) stride, snd st ++ [BeforeElement block (fst st)])
    end
  else Some st.

Definition paginateBlock (G : Geometry) (fuel : nat) (stride : float)
           (st : LoopState) (block : Node) : option LoopState :=
  let (topY, bottomY) := elementTopBottomY G block in
  if PrimFloat.leb bottomY (fst st) then Some st
  else
    match skipPages fuel block topY stride st with
    | None => None
    | Some st' =>
        let currentPageBottom := fst st' in
        match findSplitPoint G block currentPageBottom with
        | Some split =>
            Some (PrimFloat.add currentPageBottom stride,
                  snd st' ++ [TextOffset (fst split) (snd split) currentPageBottom])
        | None =>
            Some (PrimFloat.add currentPageBottom stride,
                  snd st' ++ [BeforeElement block currentPageBottom])
        end
    end.

Fixpoint paginateBlocks (G : Geometry) (fuel : nat) (stride : float)
         (l : list Node) (st : LoopState) : option LoopState :=
  match l with
  | [] => Some st
  | block :: rest =>
      match paginateBlock G fuel stride st block with
      | None => None
      | Some st' => paginateBlocks G fuel stride rest st'
      end
  end.

(** [pageHeightPx + topMarginPx + bottomMarginPx + pageGapPx], added from the
    left. *)
Definition strideOf (options : PaginateOptions) : float :=
  PrimFloat.add
    (PrimFloat.add
       (PrimFloat.add (pageHeightPx options) (orZero (topMarginPx options)))
       (orZero (bottomMarginPx options)))
    (orZero (pageGapPx options)).

(** [topMarginPx + pageHeightPx] *)
Definition firstPageBottom (options : PaginateOptions) : float :=
  PrimFloat.add (orZero (topMarginPx options)) (pageHeightPx options).

Definition computePageBreaks (G : Geometry) (fuel : nat) (options : PaginateOptions)
  : option PaginationResult :=
  let stride := strideOf options in
  match paginateBlocks G fuel stride (blocks G) (firstPageBottom options, []) with
  | None => None
  | Some st =>
      Some {| res_pageHeightPx := pageHeightPx options;
              res_topMarginPx := orZero (topMarginPx options);
              res_bottomMarginPx := orZero (bottomMarginPx options);
              res_pageGapPx := orZero (pageGapPx options);
              pageStridePx := stride;
              breaks := snd st;
              contentHeightPx := scrollHeight G |}
  end.

(** The boundary reached from [first] by adding [stride] [n] times. *)
Definition accumulated (first stride : float) (n : nat) : float :=
  Nat.iter n (fun y => PrimFloat.add y stride) first.

(** The loop invariant: the current boundary is the one reached after as
    many additions as breaks were pushed, and the [i]-th break starts its
    page at the boundary reached after [i] additions. *)
Definition wellPaged (first stride : float) (st : LoopState) : Prop :=
  fst st = accumulated first stride (List.length (snd st))
  /\ List.map pageStartYOf (snd st)
     = List.map (accumulated first stride) (seq 0 (List.length (snd st))).

(** A page height of 100.1px without margins, and a unit from Y = 750 to
    Y = 850 that holds no text. *)
Definition tenthOptions : PaginateOptions :=
  {| pageHeightPx := PrimFloat.div 1001 10; topMarginPx := None;
     bottomMarginPx := None; pageGapPx := None |}.

Definition lowUnit : Node := ElementNode 2 "pre" [ElementNode 20 "img" []].

Definition lowGeometry : Geometry :=
  {| blocks := [lowUnit];
     elementTopBottomY := fun _ => (750%float, 850%float);
     findSplitPoint := fun _ _ => None;
     scrollHeight := 850%float |}.

End Doubles.

(** * Properties *)

(** ** The DOM *)

Module DomFacts.
Import Dom.

(** Induction on a node with the hypothesis for every child. *)
Lemma Node_ind' (P : Node -> Prop)
      (Htext : forall t, P (TextNode t))
      (Helem : forall id tag cs, Forall P cs -> P (ElementNode id tag cs)) :
  forall n, P n.
Proof.
  fix IH 1. intros [t | id tag cs].
  - apply Htext.
  - apply Helem. induction cs as [| c cs IHcs]; constructor; [apply IH | exact IHcs].
Qed.

Lemma textsOf_child id tag cs c :
  In c cs -> incl (textsOf c) (textsOf (ElementNode id tag cs)).
Proof.
  intros Hc t Ht. simpl. apply in_flat_map. exists c. split; assumption.
Qed.

(** A node found inside [n] contributes only text nodes of [n]. *)
Lemma findNode_texts n :
  forall id m, findNode id n = Some m -> incl (textsOf m) (textsOf n).
Proof.
  induction n as [t | nid tag cs IH] using Node_ind'; intros id m H.
  - simpl in H. destruct (Nat.eqb (textId t) id); [| discriminate].
    injection H as <-. apply incl_refl.
  - cbn [findNode nodeId] in H.
    destruct (Nat.eqb nid id).
    + injection H as <-. apply incl_refl.
    + induction cs as [| c cs IHcs]; [discriminate |].
      inversion IH as [| ? ? Hc Hcs]; subst.
      destruct (findNode id c) as [r |] eqn:Hf.
      * injection H as <-.
        eapply incl_tran; [eapply Hc; eassumption |].
        apply textsOf_child. left. reflexivity.
      * specialize (IHcs Hcs H).
        intros t Ht. specialize (IHcs t Ht). simpl in IHcs |- *.
        apply in_or_app. right. exact IHcs.
Qed.

End DomFacts.

(** ** The intra-block splitter *)

Module SplitterFacts.
Import Dom PageCalculations DomFacts.

Lemma walkTextNodes_texts n : incl (walkTextNodes n) (textsOf n).
Proof.
  intros t Ht. unfold walkTextNodes in Ht. apply filter_In in Ht as [Ht _].
  destruct n as [t0 | id tag cs]; simpl in *; [contradiction | exact Ht].
Qed.

Lemma walkTextNodes_nonempty n t :
  In t (walkTextNodes n) -> 0 < jsLength (data t).
Proof.
  intros Ht. apply filter_In in Ht as [_ Ha]. unfold acceptNode in Ha.
  unfold jsLength. destruct (data t); simpl in *; [discriminate | lia].
Qed.

Lemma getFirstTextDescendant_in n t :
  getFirstTextDescendant n = Some t -> In t (textsOf n).
Proof.
  unfold getFirstTextDescendant. intros H. apply walkTextNodes_texts.
  destruct (walkTextNodes n); simpl in H; [discriminate |].
  injection H as ->. left. reflexivity.
Qed.

Lemma fold_last_in {A} (l : list A) :
  forall o t, fold_left (fun _ x => Some x) l o = Some t -> o = Some t \/ In t l.
Proof.
  induction l as [| x l IH]; intros o t H; simpl in H.
  - left. exact H.
  - apply IH in H as [H | H]; [injection H as ->; right; left; reflexivity |].
    right. right. exact H.
Qed.

Lemma getLastTextDescendant_in n t :
  getLastTextDescendant n = Some t -> In t (textsOf n).
Proof.
  unfold getLastTextDescendant. intros H. apply walkTextNodes_texts.
  apply fold_last_in in H as [H | H]; [discriminate | exact H].
Qed.

Lemma lastTextInPreviousSiblings_in cs i t off :
  lastTextInPreviousSiblings cs i = Some (t, off) ->
  In t (flat_map textsOf cs) /\ off = jsLength (data t).
Proof.
  induction i as [| j IH]; simpl; [discriminate |].
  destruct (nth_error cs j) as [prev |] eqn:Hn; [| exact IH].
  destruct (getLastTextDescendant prev) as [l |] eqn:Hl; [| exact IH].
  intros H. injection H as <- <-. split; [| reflexivity].
  apply in_flat_map. exists prev. split.
  - eapply nth_error_In; eassumption.
  - apply getLastTextDescendant_in. exact Hl.
Qed.

(** The caret, once normalised, names a text node of the block and an
    offset inside its data. *)
Lemma normalizeCaret_in block caret t off :
  normalizeCaretToTextPosition block caret = Some (t, off) ->
  In t (textsOf block) /\ 0 <= off <= jsLength (data t).
Proof.
  unfold normalizeCaretToTextPosition.
  destruct (findNode (fst caret) block) as [[t0 | id tag cs] |] eqn:Hf;
    [| | discriminate].
  - intros H. injection H as <- <-. split.
    + apply (findNode_texts _ _ _ Hf). left. reflexivity.
    + unfold jsLength. lia.
  - set (i := Z.to_nat _).
    destruct (nth_error cs i) as [child |] eqn:Hc.
    + destruct (getFirstTextDescendant child) as [f |] eqn:Hfirst.
      * intros H. injection H as <- <-. split.
        -- apply (findNode_texts _ _ _ Hf). simpl.
           apply in_flat_map. exists child. split.
           ++ eapply nth_error_In; eassumption.
           ++ apply getFirstTextDescendant_in. exact Hfirst.
        -- unfold jsLength. lia.
      * intros H. apply lastTextInPreviousSiblings_in in H as [Hin ->]. split.
        -- apply (findNode_texts _ _ _ Hf). exact Hin.
        -- unfold jsLength. lia.
    + intros H. apply lastTextInPreviousSiblings_in in H as [Hin ->]. split.
      * apply (findNode_texts _ _ _ Hf). exact Hin.
      * unfold jsLength. lia.
Qed.

Section WithLayout.

Variable L : Layout.
Variable root : Node.

Lemma caretSplitPoint_in block boundaryY t off :
  caretSplitPoint L root block boundaryY = Some (t, off) ->
  In t (textsOf block) /\ 0 < off <= jsLength (data t)
  /\ leY (measureBlockToTextOffsetBottomY L root block t off) boundaryY = true.
Proof.
  unfold caretSplitPoint.
  destruct (caretPositionFromPoint L _ _) as [caret |]; [| discriminate].
  destruct (normalizeCaretToTextPosition block caret) as [[t0 off0] |] eqn:Hn;
    [| discriminate].
  cbn [fst snd].
  destruct (leY _ boundaryY && (0 <? off0)) eqn:Hacc; [| discriminate].
  intros H. injection H as <- <-.
  apply andb_prop in Hacc as [Hle Hpos]. apply Z.ltb_lt in Hpos.
  apply normalizeCaret_in in Hn as [Hin Hoff].
  repeat split; try assumption; lia.
Qed.

Lemma backtrackLoop_bounds s n :
  forall refined, 0 <= refined ->
    0 <= backtrackLoop s n refined <= refined.
Proof.
  induction n as [| n IH]; intros refined H; simpl; [lia |].
  destruct (0 <? refined) eqn:Hpos; [| lia].
  destruct (testWhiteSpace _); [lia |].
  apply Z.ltb_lt in Hpos. specialize (IH (refined - 1)). lia.
Qed.

Lemma refineToWhiteSpace_bounds s best :
  0 <= best -> 0 <= refineToWhiteSpace s best <= best.
Proof.
  intros H. unfold refineToWhiteSpace.
  pose proof (backtrackLoop_bounds s maxBacktrack best H).
  destruct (_ <=? 0); lia.
Qed.

Lemma refineToWhiteSpace_positive s best :
  0 < best -> 0 < refineToWhiteSpace s best.
Proof.
  intros H. unfold refineToWhiteSpace.
  destruct (_ <=? 0) eqn:E; [lia | apply Z.leb_gt in E; lia].
Qed.

Lemma searchLoop_bounds block t boundaryY n :
  forall lo hi best, 0 <= lo -> 0 <= best <= jsLength (data t) ->
    hi <= jsLength (data t) ->
    0 <= searchLoop L root block t boundaryY n lo hi best <= jsLength (data t).
Proof.
  induction n as [| n IH]; intros lo hi best Hlo Hbest Hhi; simpl; [lia |].
  destruct (lo <=? hi) eqn:Hle; [| lia].
  apply Z.leb_le in Hle.
  assert (Hmid : lo <= Z.shiftr (lo + hi) 1 <= hi).
  { rewrite Z.shiftr_div_pow2 by lia. change (2 ^ 1) with 2.
    split; [apply Z.div_le_lower_bound | apply Z.div_le_upper_bound]; lia. }
  destruct (leY _ boundaryY); apply IH; lia.
Qed.

(** The offset of [binarySearchSplitOffset] lies inside the text node. *)
Lemma binarySearchSplitOffset_bounds block t boundaryY maxSteps :
  0 <= binarySearchSplitOffset L root block t boundaryY maxSteps
    <= jsLength (data t).
Proof.
  unfold binarySearchSplitOffset.
  assert (Hlen : 0 <= jsLength (data t)) by (unfold jsLength; lia).
  destruct (gtY _ boundaryY); [lia |].
  pose proof (searchLoop_bounds block t boundaryY maxSteps 0 (jsLength (data t)) 0)
    as Hraw.
  unfold rawSplitOffset.
  specialize (Hraw ltac:(lia) ltac:(lia) ltac:(lia)).
  pose proof (refineToWhiteSpace_bounds (data t) _ (proj1 Hraw)). lia.
Qed.

Lemma scanTextNodes_in block boundaryY maxSteps texts :
  forall previous t off,
    scanTextNodes L root block boundaryY maxSteps texts previous = Some (t, off) ->
    (In t texts \/ previous = Some t) /\ 0 <= off <= jsLength (data t).
Proof.
  induction texts as [| x texts IH]; intros previous t off H; simpl in H;
    [discriminate |].
  destruct (leY _ boundaryY).
  - apply IH in H as [[H | H] Hoff]; split; try assumption.
    + left. right. exact H.
    + injection H as ->. left. left. reflexivity.
  - destruct (_ <=? 0) eqn:E.
    + destruct previous as [prev |]; [| discriminate].
      injection H as <- <-. split; [right; reflexivity |].
      unfold jsLength. lia.
    + injection H as <- <-. split; [left; left; reflexivity |].
      apply binarySearchSplitOffset_bounds.
Qed.

(** Whatever path finds it, the split point names a text node of the
    block and an offset inside its data. *)
Lemma findSplitPointWithinBlock_in block boundaryY maxSteps t off :
  findSplitPointWithinBlock L root block boundaryY maxSteps = Some (t, off) ->
  In t (textsOf block) /\ 0 <= off <= jsLength (data t).
Proof.
  unfold findSplitPointWithinBlock.
  destruct (caretSplitPoint L root block boundaryY) as [[t0 off0] |] eqn:Hc.
  - intros H. injection H as <- <-.
    apply caretSplitPoint_in in Hc as (Hin & Hoff & _). split; [exact Hin | lia].
  - intros H. apply scanTextNodes_in in H as [[H | H] Hoff]; [| discriminate].
    split; [apply walkTextNodes_texts; exact H | exact Hoff].
Qed.

End WithLayout.

End SplitterFacts.

(** ** Moving the split to a whitespace boundary *)

Module WhiteSpaceFacts.
Import Dom PageCalculations.

(** When one of the [n] code units before [refined] is whitespace, the loop
    stops right after the nearest one. *)
Lemma backtrackLoop_found s n :
  forall refined k,
    0 <= k -> refined - Z.of_nat n <= k < refined ->
    testWhiteSpace (charAt s k) = true ->
    let r := backtrackLoop s n refined in
    k < r <= refined
    /\ testWhiteSpace (charAt s (r - 1)) = true
    /\ forall j, r <= j < refined -> testWhiteSpace (charAt s j) = false.
Proof.
  induction n as [| n IH]; intros refined k Hk Hrange Hws; [lia |].
  cbn [backtrackLoop].
  destruct (0 <? refined) eqn:Hpos; [| apply Z.ltb_ge in Hpos; lia].
  destruct (testWhiteSpace (charAt s (refined - 1))) eqn:Hlast.
  - cbv zeta. split; [lia | split; [exact Hlast | intros j Hj; lia]].
  - assert (k <> refined - 1) by (intros ->; congruence).
    specialize (IH (refined - 1) k Hk ltac:(lia) Hws).
    cbv zeta in IH |- *. destruct IH as (Hr & Hw & Hnone).
    split; [lia | split; [exact Hw |]].
    intros j Hj. destruct (Z.eq_dec j (refined - 1)) as [-> | Hne];
      [exact Hlast | apply Hnone; lia].
Qed.

(** When none of them is, the loop runs to the end of its window, or to
    the start of the string. *)
Lemma backtrackLoop_none s n :
  forall refined,
    0 <= refined ->
    (forall j, 0 <= j -> refined - Z.of_nat n <= j < refined ->
               testWhiteSpace (charAt s j) = false) ->
    backtrackLoop s n refined = Z.max 0 (refined - Z.of_nat n).
Proof.
  induction n as [| n IH]; intros refined H0 Hnone; cbn [backtrackLoop]; [lia |].
  destruct (0 <? refined) eqn:Hpos.
  - apply Z.ltb_lt in Hpos.
    rewrite (Hnone (refined - 1)) by lia.
    rewrite IH; [lia | lia |]. intros j Hj Hr. apply Hnone; lia.
  - apply Z.ltb_ge in Hpos. lia.
Qed.

(** Whitespace within the window: the split lands right after the nearest
    whitespace before the raw offset, never further back and never
    mid-word. *)
Lemma refineToWhiteSpace_found s best k :
  0 <= k -> best - Z.of_nat maxBacktrack <= k < best ->
  testWhiteSpace (charAt s k) = true ->
  let r := refineToWhiteSpace s best in
  k < r <= best
  /\ testWhiteSpace (charAt s (r - 1)) = true
  /\ forall j, r <= j < best -> testWhiteSpace (charAt s j) = false.
Proof.
  intros Hk Hrange Hws.
  pose proof (backtrackLoop_found s maxBacktrack best k Hk Hrange Hws) as H.
  cbv zeta in H |- *. unfold refineToWhiteSpace.
  destruct (_ <=? 0) eqn:E; [apply Z.leb_le in E; lia | exact H].
Qed.

(** No whitespace before a raw offset of at most [maxBacktrack]: the raw
    offset is kept. *)
Lemma refineToWhiteSpace_short s best :
  0 <= best <= Z.of_nat maxBacktrack ->
  (forall j, 0 <= j < best -> testWhiteSpace (charAt s j) = false) ->
  refineToWhiteSpace s best = best.
Proof.
  intros Hb Hnone. unfold refineToWhiteSpace.
  rewrite backtrackLoop_none; [| lia | intros; apply Hnone; lia].
  destruct (_ <=? 0) eqn:E; [reflexivity | apply Z.leb_gt in E; lia].
Qed.

(** No whitespace in the window before a raw offset beyond [maxBacktrack]:
    the result is the start of the window, [maxBacktrack] code units before
    the raw offset. *)
Lemma refineToWhiteSpace_long s best :
  Z.of_nat maxBacktrack < best ->
  (forall j, best - Z.of_nat maxBacktrack <= j < best ->
             testWhiteSpace (charAt s j) = false) ->
  refineToWhiteSpace s best = best - Z.of_nat maxBacktrack.
Proof.
  intros Hb Hnone. unfold refineToWhiteSpace.
  rewrite backtrackLoop_none; [| lia | intros; apply Hnone; lia].
  destruct (_ <=? 0) eqn:E; [apply Z.leb_le in E; lia | lia].
Qed.

Lemma last_cons_default {A} (l : list A) :
  forall x d, last (x :: l) d = last l x.
Proof.
  induction l as [| y l IH]; intros x d; [reflexivity |].
  change (last (x :: y :: l) d) with (last (y :: l) d).
  rewrite (IH y d), (IH y x). reflexivity.
Qed.

Section WithLayout.

Variable L : Layout.
Variable root : Node.

Lemma gtY_not_leY m y : gtY m y = true -> leY m y = false.
Proof.
  destruct m as [| v]; simpl; [discriminate |].
  intros H. apply Z.ltb_lt in H. apply Z.leb_gt. exact H.
Qed.

Lemma findSplitPointWithinBlock_nothingFits block boundaryY maxSteps :
  nothingFits L root block boundaryY ->
  findSplitPointWithinBlock L root block boundaryY maxSteps = None.
Proof.
  intros Hn. unfold findSplitPointWithinBlock.
  destruct (caretSplitPoint L root block boundaryY) as [[t off] |] eqn:Hc.
  - apply SplitterFacts.caretSplitPoint_in in Hc as (Hin & Hoff & Hle).
    rewrite (gtY_not_leY _ _ (Hn t off Hin Hoff)) in Hle. discriminate.
  - destruct (walkTextNodes block) as [| t rest] eqn:Hw; [reflexivity |].
    assert (Hin : In t (walkTextNodes block)) by (rewrite Hw; left; reflexivity).
    pose proof (SplitterFacts.walkTextNodes_nonempty _ _ Hin) as Hlen.
    apply SplitterFacts.walkTextNodes_texts in Hin.
    cbn [scanTextNodes].
    rewrite (gtY_not_leY _ _ (Hn t (jsLength (data t)) Hin ltac:(lia))).
    unfold binarySearchSplitOffset.
    rewrite (Hn t 1 Hin ltac:(lia)). reflexivity.
Qed.

(** The fallback scan, when the runs before [run] fit and [run] does
    not. *)
Lemma scanTextNodes_split_run block boundaryY maxSteps earlier run later :
  forall previous,
    (forall t, In t earlier ->
       leY (measureBlockToTextOffsetBottomY L root block t (jsLength (data t)))
           boundaryY = true) ->
    leY (measureBlockToTextOffsetBottomY L root block run (jsLength (data run)))
        boundaryY = false ->
    scanTextNodes L root block boundaryY maxSteps (earlier ++ run :: later) previous
    = let offset := binarySearchSplitOffset L root block run boundaryY maxSteps in
      if offset <=? 0 then
        match last (List.map Some earlier) previous with
        | Some prev => Some (prev, jsLength (data prev))
        | None => None
        end
      else Some (run, offset).
Proof.
  induction earlier as [| t earlier IH]; intros previous Hfit Hrun.
  - cbn [app scanTextNodes]. rewrite Hrun. reflexivity.
  - cbn [app scanTextNodes]. rewrite (Hfit t (or_introl eq_refl)).
    rewrite IH; [| intros; apply Hfit; right; assumption | exact Hrun].
    cbv zeta. destruct (_ <=? 0); [| reflexivity].
    cbn [List.map]. rewrite last_cons_default. reflexivity.
Qed.

(** The fallback scan, when every run fits above the boundary: no text
    crosses it. *)
Lemma scanTextNodes_all_fit block boundaryY maxSteps texts :
  forall previous,
    (forall t, In t texts ->
       leY (measureBlockToTextOffsetBottomY L root block t (jsLength (data t)))
           boundaryY = true) ->
    scanTextNodes L root block boundaryY maxSteps texts previous = None.
Proof.
  induction texts as [| t texts IH]; intros previous Hfit; [reflexivity |].
  cbn [scanTextNodes]. rewrite (Hfit t (or_introl eq_refl)).
  apply IH. intros t' Ht'. apply Hfit. right. exact Ht'.
Qed.

End WithLayout.

End WhiteSpaceFacts.

(** ** The main loop of the engine *)

Module LoopFacts.
Import Dom PageCalculations.

Lemma progression_S first stride n :
  progression first stride (S n)
  = progression first stride n ++ [first + Z.of_nat n * stride].
Proof. unfold progression. rewrite seq_S, map_app. reflexivity. Qed.

Lemma progression_nth first stride n i y :
  nth_error (progression first stride n) i = Some y ->
  y = first + Z.of_nat i * stride.
Proof.
  unfold progression. intros H. rewrite nth_error_map in H.
  destruct (nth_error (seq 0 n) i) as [k |] eqn:Hk; [| discriminate].
  injection H as <-.
  assert (Hi : (i < List.length (seq 0 n))%nat)
    by (apply nth_error_Some; congruence).
  rewrite length_seq in Hi.
  apply nth_error_nth with (d := 0%nat) in Hk.
  rewrite seq_nth in Hk by exact Hi. subst k. reflexivity.
Qed.

Lemma wellPaged_push first stride st a :
  wellPaged first stride st -> pageStartYOf a = fst st ->
  wellPaged first stride (fst st + stride, snd st ++ [a]).
Proof.
  intros [Hb Hp] Ha. unfold wellPaged. cbn [fst snd].
  rewrite length_app, Nat.add_1_r, map_app, progression_S, Hp.
  cbn [List.map List.length]. rewrite Ha, <- Hb. split; [lia | reflexivity].
Qed.

Section Loop.

Variable L : Layout.
Variable root : Node.
Variable stride : Z.
Variable maxSteps : nat.

(** What the [while] loop does: [k] breaks before the block, one per
    boundary at or above its top. *)
Lemma skipPages_spec fuel block topY :
  forall st st',
    skipPages fuel block topY stride st = Some st' ->
    exists k : nat,
      st' = (fst st + Z.of_nat k * stride,
             snd st ++ List.map (fun i => BeforeElement block (fst st + Z.of_nat i * stride))
                                (seq 0 k))
      /\ topY < fst st'
      /\ (topY < fst st -> k = 0%nat)
      /\ (fst st <= topY -> (0 < k)%nat).
Proof.
  induction fuel as [| fuel IH]; intros st st' H; cbn [skipPages] in H.
  - destruct (topY >=? fst st) eqn:E; [discriminate |].
    injection H as <-. rewrite Z.geb_leb in E. apply Z.leb_gt in E.
    exists 0%nat. cbn [seq List.map]. rewrite app_nil_r, Z.add_0_r.
    repeat split; try lia. destruct st; reflexivity.
  - destruct (topY >=? fst st) eqn:E; rewrite Z.geb_leb in E.
    + apply Z.leb_le in E. apply IH in H as (k & -> & Hlt & _ & _).
      cbn [fst snd] in *. exists (S k).
      rewrite <- app_assoc. cbn [app].
      change (seq 0 (S k)) with (0%nat :: seq 1 k).
      rewrite <- seq_shift. cbn [List.map]. rewrite map_map.
      cbn [fst snd]. split; [| split; [lia | split; intros; lia]].
      f_equal; [lia |]. f_equal. rewrite Z.add_0_r. f_equal.
      apply map_ext. intros i. f_equal. lia.
    + apply Z.leb_gt in E. injection H as <-.
      exists 0%nat. cbn [seq List.map]. rewrite app_nil_r, Z.add_0_r.
      repeat split; try lia. destruct st; reflexivity.
Qed.


Lemma skipPages_wellPaged first fuel block topY :
  forall st st',
    wellPaged first stride st ->
    skipPages fuel block topY stride st = Some st' ->
    wellPaged first stride st'
    /\ exists part, snd st' = snd st ++ part /\ Forall (anchorIn block) part.
Proof.
  induction fuel as [| fuel IH]; intros st st' Hw H; cbn [skipPages] in H.
  - destruct (topY >=? fst st); [discriminate |]. injection H as <-.
    split; [exact Hw |]. exists []. rewrite app_nil_r. split; constructor.
  - destruct (topY >=? fst st).
    + apply IH in H as [Hw' (part & Hpart & Hall)];
        [| apply wellPaged_push; [exact Hw | reflexivity]].
      split; [exact Hw' |]. cbn [snd] in Hpart.
      exists (BeforeElement block (fst st) :: part).
      rewrite Hpart, <- app_assoc. split; [reflexivity |].
      constructor; [reflexivity | exact Hall].
    + injection H as <-.
      split; [exact Hw |]. exists []. rewrite app_nil_r. split; constructor.
Qed.

Lemma paginateBlock_wellPaged first fuel block :
  forall st st',
    wellPaged first stride st ->
    paginateBlock L root fuel stride maxSteps st block = Some st' ->
    wellPaged first stride st'
    /\ exists part, snd st' = snd st ++ part /\ Forall (anchorIn block) part.
Proof.
  intros st st' Hw H. unfold paginateBlock in H.
  destruct (getElementTopBottomY L root block) as [topY bottomY].
  destruct (bottomY <=? fst st).
  - injection H as <-. split; [exact Hw |].
    exists []. rewrite app_nil_r. split; constructor.
  - destruct (skipPages fuel block topY stride st) as [st1 |] eqn:Hs;
      [| discriminate].
    apply (skipPages_wellPaged first) in Hs as [Hw1 (part & Hpart & Hall)];
      [| exact Hw].
    destruct (findSplitPointWithinBlock L root block (fst st1) maxSteps)
      as [[t off] |] eqn:Hf; injection H as <-; cbn [fst snd].
    + split; [apply wellPaged_push; [exact Hw1 | reflexivity] |].
      exists (part ++ [TextOffset t off (fst st1)]).
      rewrite Hpart, app_assoc. split; [reflexivity |].
      apply Forall_app. split; [exact Hall |]. constructor; [| constructor].
      apply SplitterFacts.findSplitPointWithinBlock_in in Hf. exact Hf.
    + split; [apply wellPaged_push; [exact Hw1 | reflexivity] |].
      exists (part ++ [BeforeElement block (fst st1)]).
      rewrite Hpart, app_assoc. split; [reflexivity |].
      apply Forall_app. split; [exact Hall |]. constructor; [| constructor].
      reflexivity.
Qed.

Lemma paginateBlocks_wellPaged first fuel blocks :
  forall st st',
    wellPaged first stride st ->
    paginateBlocks L root fuel stride maxSteps blocks st = Some st' ->
    wellPaged first stride st'
    /\ exists parts,
         snd st' = snd st ++ List.concat parts
         /\ Forall2 (fun block part => Forall (anchorIn block) part) blocks parts.
Proof.
  induction blocks as [| b blocks IH]; intros st st' Hw H; cbn [paginateBlocks] in H.
  - injection H as <-. split; [exact Hw |].
    exists []. cbn [List.concat]. rewrite app_nil_r. split; constructor.
  - destruct (paginateBlock L root fuel stride maxSteps st b) as [st1 |] eqn:Hb;
      [| discriminate].
    apply (paginateBlock_wellPaged first) in Hb as [Hw1 (part & Hpart & Hall)];
      [| exact Hw].
    apply IH in H as [Hw' (parts & Hparts & Hall')]; [| exact Hw1].
    split; [exact Hw' |]. exists (part :: parts).
    cbn [List.concat]. rewrite Hparts, Hpart, <- app_assoc.
    split; [reflexivity | constructor; assumption].
Qed.

(** *** Termination *)

Lemma skipPages_terminates block topY :
  0 < stride ->
  forall fuel st, topY - fst st < Z.of_nat fuel ->
    exists st', skipPages fuel block topY stride st = Some st'.
Proof.
  intros Hs. induction fuel as [| fuel IH]; intros st Hf; cbn [skipPages].
  - destruct (topY >=? fst st) eqn:E; [| eexists; reflexivity].
    rewrite Z.geb_leb in E. apply Z.leb_le in E. lia.
  - destruct (topY >=? fst st) eqn:E; [| eexists; reflexivity].
    apply IH. cbn [fst]. lia.
Qed.

Lemma skipPages_more_fuel block topY :
  forall fuel fuel' st st',
    skipPages fuel block topY stride st = Some st' -> (fuel <= fuel')%nat ->
    skipPages fuel' block topY stride st = Some st'.
Proof.
  induction fuel as [| fuel IH]; intros fuel' st st' H Hle; cbn [skipPages] in H.
  - destruct (topY >=? fst st) eqn:E; [discriminate |].
    destruct fuel'; cbn [skipPages]; rewrite E; exact H.
  - destruct fuel' as [| fuel']; [lia |]. cbn [skipPages].
    destruct (topY >=? fst st); [| exact H].
    apply (IH fuel'); [exact H | lia].
Qed.

Lemma paginateBlock_more_fuel block fuel fuel' st st' :
  paginateBlock L root fuel stride maxSteps st block = Some st' ->
  (fuel <= fuel')%nat ->
  paginateBlock L root fuel' stride maxSteps st block = Some st'.
Proof.
  unfold paginateBlock. intros H Hle.
  destruct (getElementTopBottomY L root block) as [topY bottomY].
  destruct (bottomY <=? fst st); [exact H |].
  destruct (skipPages fuel block topY stride st) as [st1 |] eqn:Hs; [| discriminate].
  rewrite (skipPages_more_fuel _ _ _ _ _ _ Hs Hle). exact H.
Qed.

Lemma paginateBlocks_more_fuel blocks :
  forall fuel fuel' st st',
    paginateBlocks L root fuel stride maxSteps blocks st = Some st' ->
    (fuel <= fuel')%nat ->
    paginateBlocks L root fuel' stride maxSteps blocks st = Some st'.
Proof.
  induction blocks as [| b blocks IH]; intros fuel fuel' st st' H Hle;
    cbn [paginateBlocks] in *; [exact H |].
  destruct (paginateBlock L root fuel stride maxSteps st b) as [st1 |] eqn:Hb;
    [| discriminate].
  rewrite (paginateBlock_more_fuel _ _ _ _ _ Hb Hle).
  apply (IH fuel); assumption.
Qed.

Lemma paginateBlock_terminates block st :
  0 < stride ->
  exists fuel st', paginateBlock L root fuel stride maxSteps st block = Some st'.
Proof.
  intros Hs. unfold paginateBlock.
  destruct (getElementTopBottomY L root block) as [topY bottomY].
  destruct (bottomY <=? fst st); [exists 0%nat; eexists; reflexivity |].
  destruct (skipPages_terminates block topY Hs
              (Z.to_nat (topY - fst st + 1)) st ltac:(lia)) as [st1 H1].
  exists (Z.to_nat (topY - fst st + 1)). rewrite H1.
  destruct (findSplitPointWithinBlock _ _ _ _ _); eexists; reflexivity.
Qed.

(** With a positive stride the loop over the blocks ends. *)
Lemma paginateBlocks_terminates blocks :
  0 < stride ->
  forall st, exists fuel st',
    paginateBlocks L root fuel stride maxSteps blocks st = Some st'.
Proof.
  intros Hs. induction blocks as [| b blocks IH]; intros st.
  - exists 0%nat, st. reflexivity.
  - destruct (paginateBlock_terminates b st Hs) as (f1 & st1 & H1).
    destruct (IH st1) as (f2 & st2 & H2).
    exists (Nat.max f1 f2), st2. cbn [paginateBlocks].
    rewrite (paginateBlock_more_fuel _ _ _ _ _ H1 (Nat.le_max_l f1 f2)).
    apply (paginateBlocks_more_fuel _ _ _ _ _ H2 (Nat.le_max_r f1 f2)).
Qed.

End Loop.

End LoopFacts.

(** ** The main loop in double precision *)

Module DoublesFacts.
Import Dom Doubles.

Lemma accumulated_S first stride n :
  accumulated first stride (S n) = PrimFloat.add (accumulated first stride n) stride.
Proof. reflexivity. Qed.

Lemma accumulated_initial first stride : wellPaged first stride (first, []).
Proof. split; reflexivity. Qed.

Lemma accumulated_push first stride st a :
  wellPaged first stride st -> pageStartYOf a = fst st ->
  wellPaged first stride (PrimFloat.add (fst st) stride, snd st ++ [a]).
Proof.
  intros [Hb Hp] Ha. unfold wellPaged. cbn [fst snd].
  rewrite length_app, Nat.add_1_r, seq_S, !map_app, Hp.
  cbn [List.map List.length Nat.add]. rewrite Ha, accumulated_S, <- Hb.
  split; reflexivity.
Qed.

Lemma skipPages_accumulates first stride fuel block topY :
  forall st st',
    wellPaged first stride st ->
    skipPages fuel block topY stride st = Some st' ->
    wellPaged first stride st'.
Proof.
  induction fuel as [| fuel IH]; intros st st' Hw H; cbn [skipPages] in H.
  - destruct (PrimFloat.leb (fst st) topY); [discriminate |].
    injection H as <-. exact Hw.
  - destruct (PrimFloat.leb (fst st) topY).
    + apply IH in H; [exact H |]. apply accumulated_push; [exact Hw | reflexivity].
    + injection H as <-. exact Hw.
Qed.

Lemma paginateBlock_accumulates G first stride fuel block :
  forall st st',
    wellPaged first stride st ->
    paginateBlock G fuel stride st block = Some st' ->
    wellPaged first stride st'.
Proof.
  intros st st' Hw H. unfold paginateBlock in H.
  destruct (elementTopBottomY G block) as [topY bottomY].
  destruct (PrimFloat.leb bottomY (fst st)).
  - injection H as <-. exact Hw.
  - destruct (skipPages fuel block topY stride st) as [st1 |] eqn:Hskip;
      [| discriminate].
    apply (skipPages_accumulates first) in Hskip; [| exact Hw].
    destruct (findSplitPoint G block (fst st1)) as [split |];
      injection H as <-; apply accumulated_push; try exact Hskip; reflexivity.
Qed.

Lemma paginateBlocks_accumulates G first stride fuel l :
  forall st st',
    wellPaged first stride st ->
    paginateBlocks G fuel stride l st = Some st' ->
    wellPaged first stride st'.
Proof.
  induction l as [| block rest IH]; intros st st' Hw H; cbn [paginateBlocks] in H.
  - injection H as <-. exact Hw.
  - destruct (paginateBlock G fuel stride st block) as [st1 |] eqn:Hb;
      [| discriminate].
    apply (paginateBlock_accumulates G first) in Hb; [| exact Hw].
    exact (IH _ _ Hb H).
Qed.

Lemma computePageBreaks_stride G fuel options r :
  computePageBreaks G fuel options = Some r ->
  pageStridePx r = strideOf options.
Proof.
  unfold computePageBreaks. intros H.
  destruct (paginateBlocks _ _ _ _ _) as [st |]; [| discriminate].
  injection H as <-. reflexivity.
Qed.

Lemma pageStartY_nth_accumulated G fuel options r i a :
  computePageBreaks G fuel options = Some r ->
  nth_error (breaks r) i = Some a ->
  pageStartYOf a = accumulated (firstPageBottom options) (strideOf options) i.
Proof.
  unfold computePageBreaks. intros H Ha.
  destruct (paginateBlocks _ _ _ _ _) as [st |] eqn:Hst; [| discriminate].
  injection H as <-. cbn [breaks] in Ha.
  apply (paginateBlocks_accumulates G (firstPageBottom options)) in Hst as [_ Hp];
    [| apply accumulated_initial].
  assert (Hi : (i < List.length (snd st))%nat)
    by (apply nth_error_Some; congruence).
  assert (Hm : nth_error (List.map pageStartYOf (snd st)) i = Some (pageStartYOf a))
    by (rewrite nth_error_map, Ha; reflexivity).
  rewrite Hp, nth_error_map in Hm.
  destruct (nth_error (seq 0 (List.length (snd st))) i) as [k |] eqn:Hk;
    [| discriminate].
  apply nth_error_nth with (d := 0%nat) in Hk.
  rewrite seq_nth in Hk by exact Hi. subst k.
  cbn in Hm. injection Hm as <-. reflexivity.
Qed.

End DoublesFacts.

(** ** The engine: [computePageBreaks] *)

Module EngineFacts.
Import Dom PageCalculations Examples LoopFacts.

Lemma computePageBreaks_Some L root fuel options r :
  computePageBreaks L root fuel options = Some r ->
  exists st,
    paginateBlocks L root fuel (strideOf options)
      (orDefault (maxBinarySearchSteps options) 18%nat)
      (blocksOf L root options) (firstPageBottom options, []) = Some st
    /\ breaks r = snd st
    /\ pageStridePx r = strideOf options.
Proof.
  unfold computePageBreaks. intros H.
  destruct (paginateBlocks _ _ _ _ _ _ _) as [st |]; [| discriminate].
  injection H as <-. exists st. repeat split.
Qed.

Lemma wellPaged_initial first stride : wellPaged first stride (first, []).
Proof. split; cbn; [lia | reflexivity]. Qed.

Lemma computePageBreaks_terminates L root options :
  0 < strideOf options ->
  exists fuel r, computePageBreaks L root fuel options = Some r.
Proof.
  intros Hs.
  destruct (paginateBlocks_terminates L root (strideOf options)
              (orDefault (maxBinarySearchSteps options) 18%nat)
              (blocksOf L root options) Hs (firstPageBottom options, []))
    as (fuel & st & H).
  exists fuel. unfold computePageBreaks. rewrite H. eexists. reflexivity.
Qed.

Lemma computePageBreaks_wellPaged L root fuel options r :
  computePageBreaks L root fuel options = Some r ->
  List.map pageStartYOf (breaks r)
  = progression (firstPageBottom options) (strideOf options) (List.length (breaks r))
  /\ exists parts,
       breaks r = List.concat parts
       /\ Forall2 (fun block part => Forall (anchorIn block) part)
                  (blocksOf L root options) parts.
Proof.
  intros H. apply computePageBreaks_Some in H as (st & Hst & Hb & _).
  apply (paginateBlocks_wellPaged L root _ _ (firstPageBottom options)) in Hst
    as [[_ Hp] (parts & Hparts & Hall)]; [| apply wellPaged_initial].
  rewrite Hb. split; [exact Hp |]. exists parts. split; [exact Hparts | exact Hall].
Qed.

Lemma pageStartY_nth L root fuel options r i a :
  computePageBreaks L root fuel options = Some r ->
  nth_error (breaks r) i = Some a ->
  pageStartYOf a = firstPageBottom options + Z.of_nat i * strideOf options.
Proof.
  intros H Ha. apply computePageBreaks_wellPaged in H as [Hp _].
  apply (progression_nth _ _ (List.length (breaks r))).
  rewrite <- Hp, nth_error_map, Ha. reflexivity.
Qed.

(** The breaks of a result on integer pixels, taken from the top: the
    break at index [i] starts its page at the [i]-th boundary. *)
Lemma pageStartY_closed_form L root options fuel r :
  computePageBreaks L root fuel options = Some r ->
  pageStridePx r
  = pageHeightPx options + orDefault (topMarginPx options) 0
    + orDefault (bottomMarginPx options) 0 + orDefault (pageGapPx options) 0
  /\ forall i a,
       nth_error (breaks r) i = Some a ->
       pageStartYOf a
       = orDefault (topMarginPx options) 0 + pageHeightPx options
         + Z.of_nat i * pageStridePx r.
Proof.
  intros H.
  pose proof (computePageBreaks_Some _ _ _ _ _ H) as (st & _ & _ & Hstride).
  split; [exact Hstride |].
  intros i a Ha. rewrite Hstride.
  apply (pageStartY_nth _ _ _ _ _ _ _ H Ha).
Qed.

(** C9, as the code has it.  In the source's double arithmetic, for every
    result, [pageStridePx] is the page height plus both margins plus the gap,
    added from the left, and the [i]-th break starts its page at the boundary
    reached from [topMarginPx + pageHeightPx] by adding [pageStridePx] [i]
    times: no boundary is skipped or repeated.  On integer pixels that
    boundary is [topMarginPx + pageHeightPx + i * pageStridePx] exactly, and
    with a positive stride there is a result. *)
Theorem pageStartY_accumulated :
  (forall G options fuel r,
      Doubles.computePageBreaks G fuel options = Some r ->
      Doubles.pageStridePx r
      = PrimFloat.add
          (PrimFloat.add
             (PrimFloat.add (Doubles.pageHeightPx options)
                            (Doubles.orZero (Doubles.topMarginPx options)))
             (Doubles.orZero (Doubles.bottomMarginPx options)))
          (Doubles.orZero (Doubles.pageGapPx options))
      /\ forall i a,
           nth_error (Doubles.breaks r) i = Some a ->
           Doubles.pageStartYOf a
           = Nat.iter i (fun y => PrimFloat.add y (Doubles.pageStridePx r))
               (PrimFloat.add (Doubles.orZero (Doubles.topMarginPx options))
                              (Doubles.pageHeightPx options)))
  /\ (forall L root options,
        (forall fuel r,
            computePageBreaks L root fuel options = Some r ->
            pageStridePx r
            = pageHeightPx options + orDefault (topMarginPx options) 0
              + orDefault (bottomMarginPx options) 0 + orDefault (pageGapPx options) 0
            /\ forall i a,
                 nth_error (breaks r) i = Some a ->
                 pageStartYOf a
                 = orDefault (topMarginPx options) 0 + pageHeightPx options
                   + Z.of_nat i * pageStridePx r)
        /\ (0 < strideOf options ->
            exists fuel r, computePageBreaks L root fuel options = Some r)).
Proof.
  split.
  - intros G options fuel r H.
    pose proof (DoublesFacts.computePageBreaks_stride _ _ _ _ H) as Hstride.
    split; [exact Hstride |].
    intros i a Ha. rewrite Hstride.
    exact (DoublesFacts.pageStartY_nth_accumulated _ _ _ _ _ _ H Ha).
  - intros L root options. split.
    + intros fuel r H. exact (pageStartY_closed_form _ _ _ _ _ H).
    + apply computePageBreaks_terminates.
Qed.

(** C9 on a unit that starts seven pages of 100.1px down, in doubles: eight
    breaks, each at the boundary reached by as many additions as breaks
    precede it; and on a paragraph of two lines below a figure of 250px,
    with pages of 100px, on integer pixels: three breaks, at 100, 200 and
    300. *)
Lemma pageStartY_accumulated_witness :
  (exists r,
      Doubles.computePageBreaks Doubles.lowGeometry 7 Doubles.tenthOptions = Some r
      /\ List.length (Doubles.breaks r) = 8%nat
      /\ forall i a,
           nth_error (Doubles.breaks r) i = Some a ->
           Doubles.pageStartYOf a
           = Nat.iter i (fun y => PrimFloat.add y (Doubles.pageStridePx r))
               (PrimFloat.add 0 (PrimFloat.div 1001 10)))
  /\ (exists r,
        computePageBreaks figureLayout figureThenParagraph 2 smallPages = Some r
        /\ List.map pageStartYOf (breaks r) = [100; 200; 300]
        /\ forall i a,
             nth_error (breaks r) i = Some a ->
             pageStartYOf a = 0 + 100 + Z.of_nat i * pageStridePx r).
Proof.
  split.
  - eexists. split; [reflexivity |]. split; [reflexivity |].
    exact (proj2 (proj1 pageStartY_accumulated Doubles.lowGeometry Doubles.tenthOptions
                        7%nat _ eq_refl)).
  - eexists. split; [reflexivity |]. split; [reflexivity |].
    exact (proj2 (proj1 (proj2 pageStartY_accumulated figureLayout figureThenParagraph
                               smallPages) 2%nat _ eq_refl)).
Defined.

(** C9 as stated fails on fractional pixels: with pages of 100.1px and no
    margins, the break at index 6 of the unit that starts at Y = 750 starts
    its page at the double of 7007 / 10, which prints 700.70000000000005
    and is the sum of seven times 100.1 taken one after the other, and not
    at [topMarginPx + pageHeightPx + 6 * pageStridePx], the double below it,
    which prints 700.69999999999993. *)
Lemma pageStartY_rounding_drift :
  exists r a,
    Doubles.computePageBreaks Doubles.lowGeometry 7 Doubles.tenthOptions = Some r
    /\ nth_error (Doubles.breaks r) 6 = Some a
    /\ Doubles.pageStartYOf a
       = PrimFloat.div 7007 10
    /\ Doubles.pageStartYOf a
       <> PrimFloat.add
            (PrimFloat.add (Doubles.orZero (Doubles.topMarginPx Doubles.tenthOptions))
                           (Doubles.pageHeightPx Doubles.tenthOptions))
            (PrimFloat.mul 6 (Doubles.pageStridePx r)).
Proof.
  eexists. eexists. split; [reflexivity |]. split; [reflexivity |].
  split; [reflexivity |].
  cbv. intros H. discriminate H.
Qed.




End EngineFacts.

(** ** Blocks that straddle a boundary *)

Module StraddleFacts.
Import Dom PageCalculations Examples LoopFacts.

(** The break a block gets once the splitter is invoked at [boundaryY]. *)
Lemma paginateBlock_after_skip L root fuel stride maxSteps st st1 block :
  fst st < snd (getElementTopBottomY L root block) ->
  skipPages fuel block (fst (getElementTopBottomY L root block)) stride st = Some st1 ->
  paginateBlock L root fuel stride maxSteps st block
  = Some (fst st1 + stride,
          snd st1 ++
          [match findSplitPointWithinBlock L root block (fst st1) maxSteps with
           | Some split => TextOffset (fst split) (snd split) (fst st1)
           | None => BeforeElement block (fst st1)
           end]).
Proof.
  unfold paginateBlock.
  destruct (getElementTopBottomY L root block) as [topY bottomY]. cbn [fst snd].
  intros Hfit Hskip.
  destruct (bottomY <=? fst st) eqn:E; [apply Z.leb_le in E; lia |].
  rewrite Hskip.
  destruct (findSplitPointWithinBlock L root block (fst st1) maxSteps); reflexivity.
Qed.

(** A block whose top is above the boundary and whose bottom is below it:
    no fuel is needed, and it gets exactly one break. *)
Lemma paginateBlock_straddling L root fuel stride maxSteps st block :
  fst (getElementTopBottomY L root block) < fst st
    < snd (getElementTopBottomY L root block) ->
  paginateBlock L root fuel stride maxSteps st block
  = Some (fst st + stride,
          snd st ++
          [match findSplitPointWithinBlock L root block (fst st) maxSteps with
           | Some split => TextOffset (fst split) (snd split) (fst st)
           | None => BeforeElement block (fst st)
           end]).
Proof.
  intros [Htop Hbottom].
  apply paginateBlock_after_skip; [exact Hbottom |].
  destruct fuel; cbn [skipPages];
    (destruct (_ >=? fst st) eqn:E;
     [rewrite Z.geb_leb in E; apply Z.leb_le in E; lia | reflexivity]).
Qed.

Lemma paginateBlock_fits L root fuel stride maxSteps st block :
  snd (getElementTopBottomY L root block) <= fst st ->
  paginateBlock L root fuel stride maxSteps st block = Some st.
Proof.
  unfold paginateBlock.
  destruct (getElementTopBottomY L root block) as [topY bottomY]. cbn [fst snd].
  intros H. apply Z.leb_le in H. rewrite H. reflexivity.
Qed.

(** C5: once the splitter is invoked for a block, at the boundary the
    [while] loop left, (1) when the fast path finds nothing, the runs before
    the split run fit and the split run yields offset 0, the split is at the
    end of the run before it, and the engine emits that text-offset break;
    (2) whenever the splitter finds nothing the engine emits a before-element
    break for the block and goes on; and the splitter finds nothing (3) when
    no text of the block fits above the boundary, and (4) when the fast path
    finds nothing and every run fits, so that no text crosses the
    boundary. *)
Theorem splitter_fallbacks L root fuel stride maxSteps st st1 block :
  fst st < snd (getElementTopBottomY L root block) ->
  skipPages fuel block (fst (getElementTopBottomY L root block)) stride st = Some st1 ->
  (forall earlier prev run later,
      caretSplitPoint L root block (fst st1) = None ->
      walkTextNodes block = earlier ++ prev :: run :: later ->
      (forall t, In t (earlier ++ [prev]) ->
         leY (measureBlockToTextOffsetBottomY L root block t (jsLength (data t)))
             (fst st1) = true) ->
      leY (measureBlockToTextOffsetBottomY L root block run (jsLength (data run)))
          (fst st1) = false ->
      binarySearchSplitOffset L root block run (fst st1) maxSteps = 0 ->
      findSplitPointWithinBlock L root block (fst st1) maxSteps
      = Some (prev, jsLength (data prev))
      /\ paginateBlock L root fuel stride maxSteps st block
         = Some (fst st1 + stride,
                 snd st1 ++ [TextOffset prev (jsLength (data prev)) (fst st1)]))
  /\ (findSplitPointWithinBlock L root block (fst st1) maxSteps = None ->
      paginateBlock L root fuel stride maxSteps st block
      = Some (fst st1 + stride, snd st1 ++ [BeforeElement block (fst st1)]))
  /\ (nothingFits L root block (fst st1) ->
      findSplitPointWithinBlock L root block (fst st1) maxSteps = None)
  /\ (caretSplitPoint L root block (fst st1) = None ->
      (forall t, In t (walkTextNodes block) ->
         leY (measureBlockToTextOffsetBottomY L root block t (jsLength (data t)))
             (fst st1) = true) ->
      findSplitPointWithinBlock L root block (fst st1) maxSteps = None).
Proof.
  intros Hfit Hskip.
  pose proof (paginateBlock_after_skip L root fuel stride maxSteps st st1 block
                Hfit Hskip) as Hblock.
  split; [| split; [| split]].
  - intros earlier prev run later Hcaret Hwalk Hearlier Hrun Hzero.
    assert (Hsplit : findSplitPointWithinBlock L root block (fst st1) maxSteps
                     = Some (prev, jsLength (data prev))).
    { unfold findSplitPointWithinBlock. rewrite Hcaret, Hwalk.
      replace (earlier ++ prev :: run :: later)
        with ((earlier ++ [prev]) ++ run :: later)
        by (rewrite <- app_assoc; reflexivity).
      rewrite WhiteSpaceFacts.scanTextNodes_split_run by assumption.
      cbv zeta. rewrite Hzero. cbn [Z.leb Z.compare].
      rewrite map_app. cbn [List.map]. rewrite last_last. reflexivity. }
    split; [exact Hsplit |]. rewrite Hblock, Hsplit. reflexivity.
  - intros Hsplit. rewrite Hblock, Hsplit. reflexivity.
  - apply WhiteSpaceFacts.findSplitPointWithinBlock_nothingFits.
  - intros Hcaret Hall. unfold findSplitPointWithinBlock. rewrite Hcaret.
    apply WhiteSpaceFacts.scanTextNodes_all_fit. exact Hall.
Qed.

(** C5 on three blocks whose boundary is at Y = 100: a paragraph of two text
    nodes whose second one starts below the boundary is split at the end of
    the first; a block that holds only an image gets a break before it; and
    so does a paragraph whose one line of text fits, with an image that
    crosses the boundary. *)
Lemma splitter_fallbacks_witness :
  paginateBlock twoRunsLayout twoRunsRoot 0 100 18 (100, []) twoRuns
  = Some (200, [TextOffset (mkText 10 (ofString "aaaa bbbb ")) 10 100])
  /\ paginateBlock tallAloneLayout tallUnitAlone 0 100 18 (100, []) tallUnit
     = Some (200, [BeforeElement tallUnit 100])
  /\ paginateBlock captionedLayout captionedRoot 0 100 18 (100, []) captioned
     = Some (200, [BeforeElement captioned 100]).
Proof.
  split; [| split].
  - refine (proj2 (proj1 (splitter_fallbacks twoRunsLayout twoRunsRoot 0 100 18
                            (100, []) (100, []) twoRuns eq_refl eq_refl)
                         [] (mkText 10 (ofString "aaaa bbbb "))
                         (mkText 12 (ofString "cccc dddd ")) []
                         eq_refl eq_refl _ eq_refl eq_refl)).
    intros t [<- | []]. reflexivity.
  - pose proof (splitter_fallbacks tallAloneLayout tallUnitAlone 0 100 18
                  (100, []) (100, []) tallUnit eq_refl eq_refl)
      as (_ & Hbefore & Hnothing & _).
    apply Hbefore, Hnothing. intros t off [].
  - pose proof (splitter_fallbacks captionedLayout captionedRoot 0 100 18
                  (100, []) (100, []) captioned eq_refl eq_refl)
      as (_ & Hbefore & _ & Hallfit).
    apply Hbefore, Hallfit; [reflexivity |].
    intros t [<- | []]. reflexivity.
Defined.

End StraddleFacts.

(** ** Scenarios *)

Module ScenarioFacts.
Import Dom PageCalculations Examples LoopFacts StraddleFacts.

(** C3, as the code has it: with a page content height of 864px, no margins
    and no gap, and three stacked paragraphs of 300px each, the engine
    returns exactly one break, at [pageStartY] = 864, for the third
    paragraph, which straddles the boundary: a text-offset break where the
    splitter finds a split point in it, and a before-element break before it
    otherwise, as when none of its text fits above the boundary. *)
Theorem scenarioA_one_break L root options fuel p1 p2 p3 :
  pageHeightPx options = 864 ->
  orDefault (topMarginPx options) 0 = 0 ->
  orDefault (bottomMarginPx options) 0 = 0 ->
  orDefault (pageGapPx options) 0 = 0 ->
  blocksOf L root options = [p1; p2; p3] ->
  getElementTopBottomY L root p1 = (0, 300) ->
  getElementTopBottomY L root p2 = (300, 600) ->
  getElementTopBottomY L root p3 = (600, 900) ->
  exists r,
    computePageBreaks L root fuel options = Some r
    /\ breaks r
       = [match
             findSplitPointWithinBlock L root p3 864
               (orDefault (maxBinarySearchSteps options) 18%nat)
           with
           | Some split => TextOffset (fst split) (snd split) 864
           | None => BeforeElement p3 864
           end]
    /\ (nothingFits L root p3 864 -> breaks r = [BeforeElement p3 864]).
Proof.
  intros Hh Ht Hb Hg Hblocks H1 H2 H3.
  unfold computePageBreaks. rewrite Hblocks.
  assert (Hfirst : firstPageBottom options = 864)
    by (unfold firstPageBottom; lia).
  rewrite Hfirst. cbn [paginateBlocks].
  rewrite paginateBlock_fits by (rewrite H1; cbn; lia).
  rewrite paginateBlock_fits by (rewrite H2; cbn; lia).
  rewrite paginateBlock_straddling by (rewrite H3; cbn; lia).
  eexists. split; [reflexivity |]. cbn [breaks snd fst app].
  split; [reflexivity |].
  intros Hn.
  rewrite (WhiteSpaceFacts.findSplitPointWithinBlock_nothingFits _ _ _ _ _ Hn).
  reflexivity.
Qed.

(** C3 on three paragraphs that hold an image each: one break before the
    third. *)
Lemma scenarioA_one_break_witness :
  exists r,
    computePageBreaks textLayout imageParagraphs 0 letterOptions = Some r
    /\ breaks r = [BeforeElement (paragraph 3 [image 13]) 864].
Proof.
  destruct (scenarioA_one_break textLayout imageParagraphs letterOptions 0
              (paragraph 1 [image 11]) (paragraph 2 [image 12])
              (paragraph 3 [image 13])
              eq_refl eq_refl eq_refl eq_refl eq_refl eq_refl eq_refl eq_refl)
    as (r & Hr & _ & Hnone).
  exists r. split; [exact Hr |]. apply Hnone. intros t off [].
Defined.

(** C3 as stated fails: when the three paragraphs hold text, the third is
    split after its second line, and the one break is a text-offset break. *)
Lemma scenarioA_text_is_split :
  exists r,
    computePageBreaks textLayout textParagraphs 0 letterOptions = Some r
    /\ breaks r = [TextOffset (words 13) 20 864]
    /\ breaks r <> [BeforeElement (paragraph 3 [TextNode (words 13)]) 864].
Proof.
  eexists. split; [reflexivity |]. split; [reflexivity | discriminate].
Qed.


(** On a unit without any text node the caret probe finds no split point,
    whatever it answers. *)
Lemma caretSplitPoint_without_text L root block boundaryY :
  textsOf block = [] -> caretSplitPoint L root block boundaryY = None.
Proof.
  intros Ht.
  destruct (caretSplitPoint L root block boundaryY) as [[t off] |] eqn:E;
    [| reflexivity].
  apply SplitterFacts.caretSplitPoint_in in E as [Hin _].
  rewrite Ht in Hin. destruct Hin.
Qed.




(** A paragraph that starts exactly at a boundary and fits on the next page
    is moved there by the [while] loop, and is then handed to the splitter
    all the same, at the next boundary, which none of its text crosses: it
    gets a second break. *)
Lemma block_at_boundary_gets_two_breaks :
  exists r,
    computePageBreaks fourLayout fourParagraphs 1 letterOptions = Some r
    /\ breaks r
       = [ BeforeElement (paragraph 4 [TextNode (words 14)]) 864;
           BeforeElement (paragraph 4 [TextNode (words 14)]) 1728 ].
Proof. eexists. split; reflexivity. Qed.

(** C1 on a run of sixty letters: the binary search finds offset 50, no code
    unit of the run is whitespace, and the offset returned is 10, forty code
    units before the raw offset and inside the word. *)
Theorem long_word_split_backs_off :
  rawSplitOffset longWordLayout longWordRoot longWordBlock longWord 100 18 = 50
  /\ forallb (fun c => negb (isWhiteSpaceUnit c)) (data longWord) = true
  /\ binarySearchSplitOffset longWordLayout longWordRoot longWordBlock longWord 100 18
     = 10.
Proof. repeat split. Qed.

End ScenarioFacts.

(** ** The break projection layer *)

Module PaginationFacts.
Import Pagination Examples.

Lemma clamp_clampInto size p :
  0 <= size -> Z.max 0 (Z.min p size) = clampInto size p.
Proof.
  intros Hs. unfold clampInto.
  destruct (p <? 0) eqn:E1; [apply Z.ltb_lt in E1; lia |].
  apply Z.ltb_ge in E1.
  destruct (size <? p) eqn:E2; [apply Z.ltb_lt in E2 | apply Z.ltb_ge in E2]; lia.
Qed.

(** The callback of the filter, at the index that follows [pre], sees the
    last element of [pre]. *)
Lemma filterFrom_dedupAfter rest :
  forall pre previous,
    previous = last (List.map Some pre) None ->
    filterFrom differsFromPrevious (pre ++ rest) (List.length pre) rest
    = dedupAfter previous rest.
Proof.
  induction rest as [| p rest IH]; intros pre previous Hprev; [reflexivity |].
  cbn [filterFrom dedupAfter].
  assert (Hnext : filterFrom differsFromPrevious (pre ++ p :: rest)
                    (S (List.length pre)) rest
                  = dedupAfter (Some p) rest).
  { replace (pre ++ p :: rest) with ((pre ++ [p]) ++ rest)
      by (rewrite <- app_assoc; reflexivity).
    replace (S (List.length pre)) with (List.length (pre ++ [p]))
      by (rewrite length_app; cbn; lia).
    apply IH. rewrite map_app. cbn [List.map]. rewrite last_last. reflexivity. }
  rewrite Hnext. unfold differsFromPrevious.
  destruct pre as [| x pre'] using rev_ind.
  - cbn in Hprev |- *. subst previous. reflexivity.
  - clear IHpre'. rewrite map_app in Hprev. cbn [List.map] in Hprev.
    rewrite last_last in Hprev. subst previous.
    rewrite length_app. cbn [List.length].
    replace (Nat.eqb (List.length pre' + 1) 0) with false
      by (symmetry; apply Nat.eqb_neq; lia).
    replace (List.length pre' + 1 - 1)%nat with (List.length pre') by lia.
    rewrite <- app_assoc. cbn [app orb].
    rewrite nth_error_app2 by lia. rewrite Nat.sub_diag. cbn [nth_error].
    destruct (p =? x); reflexivity.
Qed.

Lemma dedupAdjacent_cons p rest :
  dedupAdjacent (p :: rest) = p :: dedupAfter (Some p) rest.
Proof.
  revert p. induction rest as [| q rest IH]; intros p; [reflexivity |].
  cbn [dedupAdjacent dedupAfter] in *.
  rewrite (Z.eqb_sym q p).
  destruct (p =? q) eqn:E.
  - apply Z.eqb_eq in E. subst q. apply IH.
  - rewrite IH. reflexivity.
Qed.

Lemma dedupAfter_None l : dedupAfter None l = dedupAdjacent l.
Proof.
  destruct l as [| p rest]; [reflexivity |].
  rewrite dedupAdjacent_cons. reflexivity.
Qed.

(** The positions the plugin keeps are the supplied ones, clamped into the
    document and without adjacent repetitions. *)
Lemma clampPositions_spec size positions :
  0 <= size ->
  clampPositions size positions
  = dedupAdjacent (List.map (clampInto size) positions).
Proof.
  intros Hs. unfold clampPositions, arrayFilter.
  pose proof (filterFrom_dedupAfter
                (List.map (fun p => Z.max 0 (Z.min p size)) positions) [] None eq_refl)
    as H.
  cbn [app List.length] in H. rewrite H, dedupAfter_None.
  f_equal. apply map_ext. intros p. apply clamp_clampInto. exact Hs.
Qed.

Lemma fold_left_push {A B} (f : A -> B) (l : list A) :
  forall acc, fold_left (fun acc p => acc ++ [f p]) l acc = acc ++ List.map f l.
Proof.
  induction l as [| x l IH]; intros acc; cbn [fold_left List.map].
  - rewrite app_nil_r. reflexivity.
  - rewrite IH, <- app_assoc. reflexivity.
Qed.

Lemma fold_left_skip {A B} (l : list A) :
  forall acc : B, fold_left (fun acc _ => acc) l acc = acc.
Proof. induction l as [| x l IH]; intros acc; [reflexivity | apply IH]. Qed.

(** With a new break set, the state depends on the instruction and on the
    size of the new document only. *)
Lemma apply_with_meta tr prev oldState newState meta :
  getMeta tr = Some meta ->
  0 <= contentSize (stateDoc newState) ->
  decorations (apply tr prev oldState newState)
  = DecorationSet.create (stateDoc newState)
      (specSpacers (contentSize (stateDoc newState)) meta).
Proof.
  intros Hm Hs. unfold apply. rewrite Hm. cbn [decorations]. f_equal.
  unfold specSpacers. rewrite clampPositions_spec by exact Hs.
  destruct (0 <? betweenSpacerPx meta) eqn:Eb.
  - replace (betweenSpacerPx meta <=? 0) with false
      by (symmetry; apply Z.leb_gt; apply Z.ltb_lt; exact Eb).
    rewrite fold_left_push.
    destruct (0 <? topSpacerPx meta), (0 <? bottomSpacerPx meta); reflexivity.
  - replace (betweenSpacerPx meta <=? 0) with true
      by (symmetry; apply Z.leb_le; apply Z.ltb_ge; exact Eb).
    rewrite fold_left_skip.
    destruct (0 <? topSpacerPx meta), (0 <? bottomSpacerPx meta);
      cbn [app]; rewrite ?app_nil_r; reflexivity.
Qed.

(** C6: two consecutive transactions that carry the same new-break-set
    instruction, on an unchanged document, leave the spacer set the first
    one built; that set is the one the specification describes, whatever the
    spacers were before. *)
Theorem setBreaks_idempotent tr1 tr2 prev old1 new1 old2 new2 meta :
  getMeta tr1 = Some meta ->
  getMeta tr2 = Some meta ->
  stateDoc new2 = stateDoc new1 ->
  0 <= contentSize (stateDoc new1) ->
  apply tr2 (apply tr1 prev old1 new1) old2 new2 = apply tr1 prev old1 new1
  /\ decorations (apply tr1 prev old1 new1)
     = DecorationSet.create (stateDoc new1)
         (specSpacers (contentSize (stateDoc new1)) meta).
Proof.
  intros H1 H2 Hdoc Hsize.
  split; [| apply apply_with_meta; assumption].
  unfold apply. rewrite H1, H2, Hdoc. reflexivity.
Qed.

(** C6 on a document of size 30 and the positions 5, 5, -3, 12, 12, 40, 12:
    the second application changes nothing, and the breaks stand at 5, 0, 12,
    30 and 12. *)
Lemma setBreaks_idempotent_witness :
  let once := apply setBreaksTr init (mkState someDoc) (mkState someDoc) in
  apply setBreaksTr once (mkState someDoc) (mkState someDoc) = once
  /\ decorations once
     = [ widget 0 "pm-page-top-spacer" 96 (-1);
         widget 30 "pm-page-bottom-spacer" 96 1;
         widget 5 "pm-page-break" 216 (-1);
         widget 0 "pm-page-break" 216 (-1);
         widget 12 "pm-page-break" 216 (-1);
         widget 30 "pm-page-break" 216 (-1);
         widget 12 "pm-page-break" 216 (-1) ].
Proof.
  exact (setBreaks_idempotent setBreaksTr setBreaksTr init
           (mkState someDoc) (mkState someDoc) (mkState someDoc) (mkState someDoc)
           someMeta eq_refl eq_refl eq_refl ltac:(discriminate)).
Defined.

(** What the library's [map] does to a spacer set: the spacers the mapping
    does not delete, in their order, each moved to its new position. *)
Lemma DecorationSet_map_spec m d set :
  Forall2 (movedBy m) (filter (survives m) set) (DecorationSet.map m d set).
Proof.
  induction set as [| w set IH]; cbn [filter DecorationSet.map]; [constructor |].
  unfold survives at 1. unfold DecorationSet.mapWidget.
  destruct (mapResult m (pos w) (if side w <? 0 then -1 else 1)) as [p deleted] eqn:E.
  cbn [snd]. destruct deleted; cbn [negb]; [exact IH |].
  constructor; [| exact IH].
  unfold movedBy. cbn [className spacerHeight side pos]. rewrite E. repeat split.
Qed.

Lemma DecorationSet_map_noop m d set :
  (forall p assoc, mapResult m p assoc = (p, false)) ->
  DecorationSet.map m d set = set.
Proof.
  intros Hnoop. induction set as [| w set IH]; cbn [DecorationSet.map]; [reflexivity |].
  unfold DecorationSet.mapWidget. rewrite Hnoop, IH. destruct w. reflexivity.
Qed.

(** C7: a transaction without a new-break-set instruction leaves the spacers
    of the previous state mapped through its position mapping: the spacers
    the mapping does not delete, in their order, each with its element, its
    height and its side, at its mapped position; and a mapping that moves
    nothing leaves the state as it was. *)
Theorem apply_without_meta_remaps tr prev oldState newState :
  getMeta tr = None ->
  decorations (apply tr prev oldState newState)
  = DecorationSet.map (mapping tr) (doc tr) (decorations prev)
  /\ Forall2 (movedBy (mapping tr))
       (filter (survives (mapping tr)) (decorations prev))
       (decorations (apply tr prev oldState newState))
  /\ ((forall p assoc, mapResult (mapping tr) p assoc = (p, false)) ->
      apply tr prev oldState newState = prev).
Proof.
  intros Hm. unfold apply. rewrite Hm. cbn [decorations].
  split; [reflexivity |]. split; [apply DecorationSet_map_spec |].
  intros Hnoop. rewrite DecorationSet_map_noop by exact Hnoop.
  destruct prev. reflexivity.
Qed.

(** C7 on the spacers of a break set, through the deletion of the range from
    3 to 8: the break at 5 goes, the others move. *)
Lemma apply_without_meta_remaps_witness :
  let before := apply setBreaksTr init (mkState someDoc) (mkState someDoc) in
  decorations (apply deletionTr before (mkState someDoc) (mkState (mkDoc 25)))
  = [ widget 0 "pm-page-top-spacer" 96 (-1);
      widget 25 "pm-page-bottom-spacer" 96 1;
      widget 0 "pm-page-break" 216 (-1);
      widget 7 "pm-page-break" 216 (-1);
      widget 25 "pm-page-break" 216 (-1);
      widget 7 "pm-page-break" 216 (-1) ].
Proof.
  exact (proj1 (apply_without_meta_remaps deletionTr
                  (apply setBreaksTr init (mkState someDoc) (mkState someDoc))
                  (mkState someDoc) (mkState (mkDoc 25)) eq_refl)).
Defined.

(** C10: [clearPaginationBreaks] does what [setPaginationBreaks([], 0, 0, 0)]
    does: the same return value, the same meta on the transaction, the same
    dispatch; and the plugin answers either transaction with the empty
    spacer set. *)
Theorem clear_is_set_empty props prev oldState newState :
  clearPaginationBreaks props = setPaginationBreaks [] 0 0 0 props
  /\ getMeta (trAfter (clearPaginationBreaks props)) = Some (mkMeta [] 0 0 0)
  /\ dispatched (clearPaginationBreaks props)
     = (if dispatch props then Some (trAfter (clearPaginationBreaks props)) else None)
  /\ decorations (apply (trAfter (clearPaginationBreaks props)) prev oldState newState)
     = DecorationSet.empty
  /\ decorations (apply (trAfter (setPaginationBreaks [] 0 0 0 props)) prev oldState newState)
     = DecorationSet.empty.
Proof. repeat split. Qed.

End PaginationFacts.

(** ** The reactive scheduler *)

Module SchedulerFacts.
Import UsePagination Examples.

(** Take a world apart into its fields and the facts known about them. *)
Ltac open_world w :=
  let nw := fresh "clock" in
  let nh := fresh "next" in
  let ts := fresh "ts" in
  let fs := fresh "fs" in
  let d := fresh "destroyed" in
  let tid := fresh "tid" in
  let rid := fresh "rid" in
  let cs := fresh "cs" in
  destruct w as [[nw nh ts fs] [d tid rid cs]];
  cbn [fst snd now nextHandle timeouts animationFrames destroyedRef
       timeoutIdRef rafIdRef computedAt] in *.

Ltac phase_facts :=
  repeat match goal with
         | H : exists _, _ |- _ => destruct H
         | H : _ /\ _ |- _ => destruct H
         end;
  cbn [fst snd now nextHandle timeouts animationFrames destroyedRef
       timeoutIdRef rafIdRef computedAt] in *;
  subst.

Section Debounce.

Variable debounceMs : Z.

Lemma filter_self_out h (due : Z) :
  filter (fun e : nat * Z => negb (Nat.eqb (fst e) h)) [(h, due)] = [].
Proof. cbn. rewrite Nat.eqb_refl. reflexivity. Qed.

Lemma filter_frame_out h :
  filter (fun e : nat => negb (Nat.eqb e h)) [h] = [].
Proof. cbn. rewrite Nat.eqb_refl. reflexivity. Qed.

(** A change event at rest starts the debounce timer. *)
Lemma change_when_idle w :
  idle w ->
  pendingTimer (scheduleRecompute true debounceMs w) (now (fst w) + debounceMs)
  /\ now (fst (scheduleRecompute true debounceMs w)) = now (fst w).
Proof.
  intros Hidle. unfold idle in Hidle. open_world w. phase_facts.
  cbn. split; [| reflexivity]. exists next. cbn. repeat split.
Qed.

(** A change event while the timer is pending cancels it and starts a new
    one, due a full debounce window from now. *)
Lemma change_when_pending w due :
  pendingTimer w due ->
  pendingTimer (scheduleRecompute true debounceMs w) (now (fst w) + debounceMs)
  /\ now (fst (scheduleRecompute true debounceMs w)) = now (fst w).
Proof.
  intros Hp. unfold pendingTimer in Hp. open_world w. phase_facts.
  cbn [scheduleRecompute negb destroyedRef timeoutIdRef clearTimeout setTimeout
       timeouts now nextHandle animationFrames fst snd withTimeoutId].
  rewrite filter_self_out. split; [| reflexivity].
  exists next. cbn. repeat split.
Qed.

(** While the timer is not due, the browser can only let time pass. *)
Lemma quiet_step w due e w' :
  pendingTimer w due ->
  browserOnly e = true ->
  now (fst w) + elapsedBy e < due ->
  step true debounceMs w e = Some w' ->
  pendingTimer w' due /\ now (fst w') = now (fst w) + elapsedBy e.
Proof.
  intros Hp Hb Hnow Hstep. unfold pendingTimer in Hp. open_world w. phase_facts.
  destruct e as [| dt | h | h | |]; try discriminate; cbn [step elapsedBy] in *.
  - destruct (dt <? 0); [discriminate |]. injection Hstep as <-.
    cbn [fst snd now]. split; [| reflexivity]. eexists. cbn. repeat split.
  - unfold dueTimeOf in Hstep. cbn [timeouts find fst snd] in Hstep.
    destruct (Nat.eqb x h); cbn [now snd] in Hstep; [| discriminate].
    destruct (due <=? clock) eqn:E; [apply Z.leb_le in E; lia | discriminate].
Qed.

(** A trace the browser can run lets no negative time pass. *)
Lemma run_elapsed_nonneg hasRoot q :
  forall w w', run hasRoot debounceMs w q = Some w' -> 0 <= elapsed q.
Proof.
  induction q as [| e q IH]; intros w w' Hrun; [cbn; lia |].
  cbn [run elapsed fold_right] in *. fold (elapsed q).
  destruct (step hasRoot debounceMs w e) as [w1 |] eqn:Hstep; [| discriminate].
  specialize (IH w1 w' Hrun).
  destruct e as [| dt | | | |]; cbn [elapsedBy]; try lia.
  destruct w as [b k]. cbn [step] in Hstep.
  destruct (dt <? 0) eqn:E; [discriminate | apply Z.ltb_ge in E; lia].
Qed.

Lemma quiet_run q :
  forall w due w',
    pendingTimer w due ->
    forallb browserOnly q = true ->
    now (fst w) + elapsed q < due ->
    run true debounceMs w q = Some w' ->
    pendingTimer w' due /\ now (fst w') = now (fst w) + elapsed q.
Proof.
  induction q as [| e q IH]; intros w due w' Hp Hb Hnow Hrun.
  - cbn in *. injection Hrun as <-. split; [exact Hp | lia].
  - cbn [run forallb elapsed fold_right] in *. fold (elapsed q) in *.
    apply andb_prop in Hb as [He Hq].
    destruct (step true debounceMs w e) as [w1 |] eqn:Hstep; [| discriminate].
    pose proof (run_elapsed_nonneg _ _ _ _ Hrun) as Hrest.
    destruct (quiet_step w due e w1 Hp He ltac:(lia) Hstep) as [Hp1 Hn1].
    destruct (IH w1 due w' Hp1 Hq ltac:(lia) Hrun) as [Hp' Hn'].
    split; [exact Hp' | lia].
Qed.

Lemma run_app hasRoot a :
  forall w b,
    run hasRoot debounceMs w (a ++ b)
    = match run hasRoot debounceMs w a with
      | Some w1 => run hasRoot debounceMs w1 b
      | None => None
      end.
Proof.
  induction a as [| e a IH]; intros w b; cbn [app run]; [reflexivity |].
  destruct (step hasRoot debounceMs w e); [apply IH | reflexivity].
Qed.

(** Browser activity, then a change event: the timer is pending again, due
    a full window after the change. *)
Lemma quiet_then_change q w due w' :
  pendingTimer w due ->
  forallb browserOnly q = true ->
  now (fst w) + elapsed q < due ->
  run true debounceMs w (q ++ [Change]) = Some w' ->
  pendingTimer w' (now (fst w) + elapsed q + debounceMs)
  /\ now (fst w') = now (fst w) + elapsed q.
Proof.
  intros Hp Hq Hnow Hrun. rewrite run_app in Hrun.
  destruct (run true debounceMs w q) as [w1 |] eqn:Hq1; [| discriminate].
  destruct (quiet_run q w due w1 Hp Hq Hnow Hq1) as [Hp1 Hn1].
  destruct (change_when_pending w1 due Hp1) as [Hp' Hn'].
  assert (Hw' : w' = scheduleRecompute true debounceMs w1).
  { destruct w1 as [b1 k1]. cbn [run step] in Hrun. congruence. }
  subst w'. rewrite <- Hn1. split; [exact Hp' | exact Hn'].
Qed.

(** Once the last change event has been handled, the browser can only carry
    the one recomputation forward. *)
Lemma recomputation_step w due e w' :
  oneRecomputation w due ->
  browserOnly e = true ->
  step true debounceMs w e = Some w' ->
  oneRecomputation w' due.
Proof.
  intros Hphase Hb Hstep.
  destruct e as [| dt | h | h | |]; try discriminate.
  - (* time passes *)
    destruct w as [b k]. cbn [step] in Hstep.
    destruct (dt <? 0) eqn:E; [discriminate |]. apply Z.ltb_ge in E.
    injection Hstep as <-.
    destruct Hphase as [Hp | [Hm | Hs]]; [left | right; left | right; right].
    + unfold pendingTimer in *. phase_facts. eexists. cbn. repeat split; eassumption.
    + unfold measuring in *. phase_facts. eexists. cbn.
      repeat split; try eassumption. lia.
    + unfold settled in *. phase_facts. eexists. cbn.
      repeat split; try eassumption; lia.
  - (* the timer fires *)
    destruct Hphase as [Hp | [Hm | Hs]].
    + right. left. unfold pendingTimer in Hp. open_world w. phase_facts.
      unfold step, dueTimeOf in Hstep. cbn [timeouts find fst snd] in Hstep.
      destruct (Nat.eqb x h) eqn:Eh; cbn [now snd] in Hstep; [| discriminate].
      apply Nat.eqb_eq in Eh. subst x.
      destruct (due <=? clock) eqn:E; [| discriminate]. apply Z.leb_le in E.
      injection Hstep as <-.
      unfold measuring. cbn. rewrite Nat.eqb_refl. cbn.
      exists next. repeat split. exact E.
    + unfold measuring in Hm. open_world w. phase_facts. discriminate.
    + unfold settled in Hs. open_world w. phase_facts. discriminate.
  - (* the frame fires *)
    destruct Hphase as [Hp | [Hm | Hs]].
    + unfold pendingTimer in Hp. open_world w. phase_facts. discriminate.
    + right. right. unfold measuring in Hm. open_world w. phase_facts.
      cbn [step animationFrames existsb] in Hstep.
      destruct (Nat.eqb h x) eqn:Eh; cbn [orb] in Hstep; [| discriminate].
      apply Nat.eqb_eq in Eh. subst x. injection Hstep as <-.
      unfold settled. cbn. rewrite Nat.eqb_refl. cbn.
      exists clock. repeat split; try lia.
    + unfold settled in Hs. open_world w. phase_facts. discriminate.
Qed.

Lemma recomputation_run q :
  forall w due w',
    oneRecomputation w due ->
    forallb browserOnly q = true ->
    run true debounceMs w q = Some w' ->
    oneRecomputation w' due.
Proof.
  induction q as [| e q IH]; intros w due w' Hphase Hb Hrun; cbn [run forallb] in *.
  - injection Hrun as <-. exact Hphase.
  - apply andb_prop in Hb as [He Hq].
    destruct (step true debounceMs w e) as [w1 |] eqn:Hstep; [| discriminate].
    apply (IH w1 due w'); [| exact Hq | exact Hrun].
    apply (recomputation_step w due e w1); assumption.
Qed.

(** What one recomputation in one of its phases amounts to. *)
Lemma oneRecomputation_facts w due :
  oneRecomputation w due ->
  (List.length (computedAt (snd w)) <= 1)%nat
  /\ (forall t, In t (computedAt (snd w)) -> due <= t)
  /\ (timeouts (fst w) = [] -> animationFrames (fst w) = [] ->
      exists t, computedAt (snd w) = [t] /\ due <= t).
Proof.
  intros [Hp | [Hm | Hs]].
  - unfold pendingTimer in Hp. open_world w. phase_facts. cbn [List.length In].
    split; [lia |]. split; [intros t [] |]. intros Hts. discriminate.
  - unfold measuring in Hm. open_world w. phase_facts. cbn [List.length In].
    split; [lia |]. split; [intros t [] |]. intros _ Hfs. discriminate.
  - unfold settled in Hs. open_world w. phase_facts. cbn [List.length In].
    split; [lia |]. split; [intros t [<- | []]; lia |].
    intros _ _. eexists. split; [reflexivity | lia].
Qed.

Lemma scheduleRecompute_coherent hasRoot w :
  coherent w -> coherent (scheduleRecompute hasRoot debounceMs w).
Proof.
  intros [Ht Hf]. open_world w. unfold scheduleRecompute.
  destruct hasRoot; cbn [negb]; [| split; assumption].
  destruct destroyed; cbn [destroyedRef]; [split; assumption |].
  destruct tid as [h |]; [destruct Ht as [due ->] | subst ts];
    cbn; rewrite ?Nat.eqb_refl; cbn; (split; [eexists; reflexivity | exact Hf]).
Qed.

Lemma recomputeNow_coherent hasRoot w :
  coherent w -> coherent (recomputeNow hasRoot w).
Proof.
  intros [Ht Hf]. open_world w. unfold recomputeNow.
  destruct hasRoot; cbn [negb]; [| split; assumption].
  destruct destroyed; cbn [destroyedRef]; [split; assumption |].
  destruct rid as [h |]; subst fs;
    cbn; rewrite ?Nat.eqb_refl; cbn; (split; [exact Ht | reflexivity]).
Qed.

(** Whatever happens, at most one timeout and one frame request are
    pending, and they are the ones the refs name. *)
Lemma step_coherent hasRoot w e w' :
  coherent w -> step hasRoot debounceMs w e = Some w' -> coherent w'.
Proof.
  intros Hc Hstep. destruct e as [| dt | h | h | |].
  - destruct w as [b k]. cbn [step] in Hstep. injection Hstep as <-.
    exact (scheduleRecompute_coherent hasRoot (b, k) Hc).
  - destruct Hc as [Ht Hf]. open_world w. cbn [step] in Hstep.
    destruct (dt <? 0); [discriminate |]. injection Hstep as <-.
    split; assumption.
  - destruct w as [b k]. cbn [step] in Hstep.
    destruct (dueTimeOf b h) as [due |] eqn:Hdue; [| discriminate].
    destruct (due <=? now b); [| discriminate]. injection Hstep as <-.
    refine (recomputeNow_coherent hasRoot (clearTimeout b h, withTimeoutId k None) _).
    destruct Hc as [Ht Hf]. unfold dueTimeOf in Hdue.
    destruct b as [clock next ts fs], k as [destroyed tid rid cs].
    cbn [fst snd now nextHandle timeouts animationFrames destroyedRef
         timeoutIdRef rafIdRef computedAt] in *.
    destruct tid as [h0 |]; [destruct Ht as [due0 ->] | subst ts; discriminate].
    cbn [find fst] in Hdue.
    destruct (Nat.eqb h0 h) eqn:Eh; [| discriminate].
    split; cbn; rewrite ?Eh; cbn; [reflexivity | exact Hf].
  - destruct Hc as [Ht Hf]. open_world w. cbn [step animationFrames] in Hstep.
    destruct rid as [r |]; subst fs; [| discriminate].
    cbn [existsb orb] in Hstep.
    destruct (Nat.eqb h r) eqn:Eh; cbn [orb] in Hstep; [| discriminate].
    apply Nat.eqb_eq in Eh. subst r. injection Hstep as <-.
    unfold frameCallback. cbn [withRafId destroyedRef].
    destruct destroyed; unfold coherent; cbn; rewrite Nat.eqb_refl; cbn;
      (split; [exact Ht | reflexivity]).
  - destruct Hc as [Ht Hf]. open_world w. cbn [step] in Hstep.
    injection Hstep as <-. unfold effectCleanup.
    destruct tid as [h0 |]; [destruct Ht as [due ->] | subst ts];
      (destruct rid as [r |]; subst fs);
      unfold coherent; cbn; rewrite ?Nat.eqb_refl; cbn; (split; reflexivity).
  - destruct w as [b k]. cbn [step] in Hstep. injection Hstep as <-.
    destruct hasRoot.
    + exact (scheduleRecompute_coherent true (b, withDestroyed k false) Hc).
    + exact Hc.
Qed.

Lemma run_coherent hasRoot trace :
  forall w w',
    coherent w -> run hasRoot debounceMs w trace = Some w' -> coherent w'.
Proof.
  induction trace as [| e trace IH]; intros w w' Hc Hrun; cbn [run] in Hrun.
  - injection Hrun as <-. exact Hc.
  - destruct (step hasRoot debounceMs w e) as [w1 |] eqn:Hstep; [| discriminate].
    apply (IH w1 w'); [| exact Hrun]. apply (step_coherent hasRoot w e w1); assumption.
Qed.

Lemma coherent_at_most_one w :
  coherent w ->
  (List.length (timeouts (fst w)) <= 1)%nat
  /\ (List.length (animationFrames (fst w)) <= 1)%nat.
Proof.
  intros [Ht Hf]. open_world w.
  destruct tid; [destruct Ht as [due ->] | subst ts];
    (destruct rid; subst fs); cbn; lia.
Qed.

Lemma idle_coherent w : idle w -> coherent w.
Proof.
  unfold idle, coherent. intros (Hts & Hfs & _ & Htid & Hrid & _).
  rewrite Htid, Hrid. split; assumption.
Qed.

Lemma elapsed_app a b : elapsed (a ++ b) = elapsed a + elapsed b.
Proof.
  induction a as [| e a IH]; [cbn [app]; change (elapsed []) with 0; lia |].
  change (elapsed ((e :: a) ++ b)) with (elapsedBy e + elapsed (a ++ b)).
  change (elapsed (e :: a)) with (elapsedBy e + elapsed a). lia.
Qed.

Lemma run_app_Some hasRoot a b w w' :
  run hasRoot debounceMs w (a ++ b) = Some w' ->
  exists w1, run hasRoot debounceMs w a = Some w1
             /\ run hasRoot debounceMs w1 b = Some w'.
Proof.
  rewrite run_app. destruct (run hasRoot debounceMs w a) as [w1 |]; [| discriminate].
  intros H. exists w1. split; [reflexivity | exact H].
Qed.

Lemma burstOfFive_segments q1 q2 q3 q4 rest :
  burstOfFive q1 q2 q3 q4 rest
  = [Change] ++ (q1 ++ [Change]) ++ (q2 ++ [Change]) ++ (q3 ++ [Change])
    ++ (q4 ++ [Change]) ++ rest.
Proof.
  unfold burstOfFive. cbn [app]. repeat rewrite <- app_assoc. reflexivity.
Qed.

Lemma segment_elapsed_nonneg hasRoot q w w' :
  run hasRoot debounceMs w (q ++ [Change]) = Some w' -> 0 <= elapsed q.
Proof.
  intros H. apply run_elapsed_nonneg in H. rewrite elapsed_app in H.
  cbn in H. lia.
Qed.

(** C8: (1) a change event that arrives while the debounce timer is pending
    leaves one pending timer, due a full window after the event; (2) in
    every run of the hook at most one timeout and at most one animation
    frame are pending; (3) after five change events with less than the
    debounce window between the first and the last, whatever the browser
    does next, one recomputation is under way or done: [computePageBreaks]
    has run at most once, never before the window after the last event has
    passed, and exactly once when nothing is pending any more. *)
Theorem burst_computes_once :
  (forall w due,
      pendingTimer w due ->
      pendingTimer (scheduleRecompute true debounceMs w) (now (fst w) + debounceMs))
  /\ (forall hasRoot w trace w',
        coherent w ->
        run hasRoot debounceMs w trace = Some w' ->
        (List.length (timeouts (fst w')) <= 1)%nat
        /\ (List.length (animationFrames (fst w')) <= 1)%nat)
  /\ (forall w0 q1 q2 q3 q4 rest w,
        idle w0 ->
        forallb browserOnly (q1 ++ q2 ++ q3 ++ q4 ++ rest) = true ->
        elapsed q1 + elapsed q2 + elapsed q3 + elapsed q4 < debounceMs ->
        run true debounceMs w0 (burstOfFive q1 q2 q3 q4 rest) = Some w ->
        let quiet :=
          now (fst w0) + elapsed q1 + elapsed q2 + elapsed q3 + elapsed q4
          + debounceMs in
        oneRecomputation w quiet
        /\ (List.length (computedAt (snd w)) <= 1)%nat
        /\ (forall t, In t (computedAt (snd w)) -> quiet <= t)
        /\ (timeouts (fst w) = [] -> animationFrames (fst w) = [] ->
            exists t, computedAt (snd w) = [t] /\ quiet <= t)).
Proof.
  split; [intros w due Hp; apply (change_when_pending w due Hp) |].
  split.
  { intros hasRoot w trace w' Hc Hrun. apply coherent_at_most_one.
    apply (run_coherent hasRoot trace w w' Hc Hrun). }
  intros w0 q1 q2 q3 q4 rest w Hidle Hb Hwindow Hrun quiet.
  rewrite burstOfFive_segments in Hrun.
  apply run_app_Some in Hrun as (w1 & H1 & Hrun).
  apply run_app_Some in Hrun as (w2 & H2 & Hrun).
  apply run_app_Some in Hrun as (w3 & H3 & Hrun).
  apply run_app_Some in Hrun as (w4 & H4 & Hrun).
  apply run_app_Some in Hrun as (w5 & H5 & Hrest).
  pose proof (segment_elapsed_nonneg _ _ _ _ H2) as E1.
  pose proof (segment_elapsed_nonneg _ _ _ _ H3) as E2.
  pose proof (segment_elapsed_nonneg _ _ _ _ H4) as E3.
  pose proof (segment_elapsed_nonneg _ _ _ _ H5) as E4.
  repeat rewrite forallb_app in Hb.
  apply andb_prop in Hb as [B1 Hb]. apply andb_prop in Hb as [B2 Hb].
  apply andb_prop in Hb as [B3 Hb]. apply andb_prop in Hb as [B4 Brest].
  assert (Hw1 : w1 = scheduleRecompute true debounceMs w0).
  { destruct w0 as [b0 k0]. cbn [run step] in H1. congruence. }
  destruct (change_when_idle w0 Hidle) as [P1 N1]. rewrite <- Hw1 in P1, N1.
  destruct (quiet_then_change q1 w1 _ w2 P1 B1 ltac:(lia) H2) as [P2 N2].
  destruct (quiet_then_change q2 w2 _ w3 P2 B2 ltac:(lia) H3) as [P3 N3].
  destruct (quiet_then_change q3 w3 _ w4 P3 B3 ltac:(lia) H4) as [P4 N4].
  destruct (quiet_then_change q4 w4 _ w5 P4 B4 ltac:(lia) H5) as [P5 N5].
  assert (Hquiet : now (fst w4) + elapsed q4 + debounceMs = quiet)
    by (unfold quiet; lia).
  rewrite Hquiet in P5.
  assert (Hone : oneRecomputation w quiet).
  { apply (recomputation_run rest w5 quiet w); [left; exact P5 | exact Brest | exact Hrest]. }
  split; [exact Hone |]. apply oneRecomputation_facts. exact Hone.
Qed.

End Debounce.

(** C8 on five change events at 1000, 1002, 1005, 1007 and 1010 ms with a
    window of 50 ms: the timer fires at 1063, the frame at 1072, and
    [computePageBreaks] has run once, at 1072. *)
Lemma burst_computes_once_witness :
  idle restingWorld
  /\ elapsed [Elapse 2] + elapsed [Elapse 3] + elapsed [Elapse 2] + elapsed [Elapse 3] <= 10
  /\ exists w,
       run true 50 restingWorld fiveChanges = Some w
       /\ computedAt (snd w) = [1072]
       /\ (List.length (computedAt (snd w)) <= 1)%nat
       /\ (forall t, In t (computedAt (snd w)) -> 1060 <= t).
Proof.
  split; [repeat split |]. split; [discriminate |].
  exists (mkBrowser 1172 6 [] [], mkHook false None None [1072]).
  split; [reflexivity |]. split; [reflexivity |].
  destruct (proj2 (proj2 (burst_computes_once 50))
              restingWorld [Elapse 2] [Elapse 3] [Elapse 2] [Elapse 3]
              [Elapse 49; Elapse 4; TimeoutFires 4; Elapse 9; FrameFires 5; Elapse 100]
              (mkBrowser 1172 6 [] [], mkHook false None None [1072])
              (conj eq_refl (conj eq_refl (conj eq_refl
                 (conj eq_refl (conj eq_refl eq_refl)))))
              eq_refl eq_refl eq_refl)
    as (_ & Hlen & Hafter & _).
  split; [exact Hlen | exact Hafter].
Defined.

End SchedulerFacts.

(** ** The binary search *)

Module BinarySearchFacts.
Import Dom PageCalculations Examples MoreExamples Conditions.

Section WithLayout.

Variable L : Layout.
Variable root : Node.

Lemma midpoint_between lo hi :
  lo <= hi ->
  lo <= Z.shiftr (lo + hi) 1 <= hi
  /\ 2 * Z.shiftr (lo + hi) 1 <= lo + hi <= 2 * Z.shiftr (lo + hi) 1 + 1.
Proof.
  intros H. rewrite Z.shiftr_div_pow2 by lia. change (2 ^ 1) with 2.
  pose proof (Z.div_mod (lo + hi) 2 ltac:(lia)) as Hd.
  pose proof (Z.mod_pos_bound (lo + hi) 2 ltac:(lia)) as Hm.
  lia.
Qed.

(** Whatever the layout and the number of steps, the search settles on 0 or
    on an offset it measured at or above the boundary. *)
Lemma searchLoop_zero_or_fits block t boundaryY n :
  forall lo hi best,
    best = 0 \/ fits L root block t boundaryY best = true ->
    let r := searchLoop L root block t boundaryY n lo hi best in
    r = 0 \/ fits L root block t boundaryY r = true.
Proof.
  induction n as [| n IH]; intros lo hi best Hbest; cbn [searchLoop]; [exact Hbest |].
  destruct (lo <=? hi); [| exact Hbest].
  cbv zeta.
  destruct (leY (measureBlockToTextOffsetBottomY L root block t (Z.shiftr (lo + hi) 1))
              boundaryY) eqn:E.
  - apply IH. right. exact E.
  - apply IH. exact Hbest.
Qed.

(** The invariant of the search on a layout that grows downwards: everything
    before [lo] fits, nothing after [hi] does, and [best] is the offset just
    before [lo]. *)
Lemma searchLoop_exact block t boundaryY n :
  growsDownwards L root block t boundaryY ->
  forall lo hi best,
    0 <= lo ->
    hi - lo + 1 < 2 ^ Z.of_nat n ->
    (forall off, 0 <= off < lo -> fits L root block t boundaryY off = true) ->
    (forall off, hi < off <= jsLength (data t) ->
                 fits L root block t boundaryY off = false) ->
    (lo = 0 /\ best = 0) \/ (0 < lo /\ best = lo - 1) ->
    -1 <= hi ->
    let r := searchLoop L root block t boundaryY n lo hi best in
    (forall off, r < off <= jsLength (data t) ->
                 fits L root block t boundaryY off = false)
    /\ (0 < r -> fits L root block t boundaryY r = true).
Proof.
  intros Hmono.
  induction n as [| n IH]; intros lo hi best Hlo Hsize Hbelow Habove Hbest Hhi;
    cbn [searchLoop].
  - change (2 ^ Z.of_nat 0) with 1 in Hsize. cbv zeta. split.
    + intros off Hoff. apply Habove; lia.
    + intros Hr. apply Hbelow. lia.
  - rewrite Nat2Z.inj_succ, Z.pow_succ_r in Hsize by lia.
    destruct (lo <=? hi) eqn:Ele.
    + apply Z.leb_le in Ele.
      destruct (midpoint_between lo hi Ele) as [Hmid Htwice].
      set (mid := Z.shiftr (lo + hi) 1) in *.
      cbv zeta.
      destruct (leY (measureBlockToTextOffsetBottomY L root block t mid) boundaryY)
        eqn:E.
      * apply IH; try lia.
        -- intros off Hoff. apply (Hmono off mid); [lia | exact E].
        -- intros off Hoff. apply Habove; lia.
      * apply IH; try lia; [exact Hbelow |].
        intros off Hoff.
        destruct (fits L root block t boundaryY off) eqn:Ef; [| reflexivity].
        assert (Hm : fits L root block t boundaryY mid = true)
          by (apply (Hmono mid off); [lia | exact Ef]).
        unfold fits in Hm. congruence.
    + apply Z.leb_gt in Ele. cbv zeta. split.
      * intros off Hoff. apply Habove; lia.
      * intros Hr. apply Hbelow. lia.
Qed.

End WithLayout.

(** X1: the offset [binarySearchSplitOffset] returns lies inside the text
    node, whatever the layout and the number of steps, and it is 0 when the
    first code unit already ends below the boundary. *)
Theorem splitOffset_within_text L root block t boundaryY maxSteps :
  0 <= binarySearchSplitOffset L root block t boundaryY maxSteps <= jsLength (data t)
  /\ (gtY (measureBlockToTextOffsetBottomY L root block t 1) boundaryY = true ->
      binarySearchSplitOffset L root block t boundaryY maxSteps = 0).
Proof.
  split; [apply SplitterFacts.binarySearchSplitOffset_bounds |].
  intros H. unfold binarySearchSplitOffset. rewrite H. reflexivity.
Qed.

Lemma splitOffset_within_text_witness :
  binarySearchSplitOffset twoRunsLayout twoRunsRoot twoRuns
    (mkText 12 (ofString "cccc dddd ")) 100 18 = 0.
Proof.
  exact (proj2 (splitOffset_within_text twoRunsLayout twoRunsRoot twoRuns
                  (mkText 12 (ofString "cccc dddd ")) 100 18) eq_refl).
Defined.

(** X2: on a layout that grows downwards along the text node, and with more
    steps than the binary logarithm of its length, the raw offset of the
    search is the largest offset that fits: an offset of the text node fits
    exactly when it is at most the raw offset. *)
Theorem rawSplitOffset_is_largest_fit L root block t boundaryY maxSteps :
  growsDownwards L root block t boundaryY ->
  jsLength (data t) + 1 < 2 ^ Z.of_nat maxSteps ->
  fits L root block t boundaryY 0 = true ->
  let r := rawSplitOffset L root block t boundaryY maxSteps in
  0 <= r <= jsLength (data t)
  /\ forall off, 0 <= off <= jsLength (data t) ->
       (fits L root block t boundaryY off = true <-> off <= r).
Proof.
  intros Hmono Hsteps Hzero r.
  assert (Hlen : 0 <= jsLength (data t)) by (unfold jsLength; lia).
  pose proof (SplitterFacts.searchLoop_bounds L root block t boundaryY maxSteps
                0 (jsLength (data t)) 0 ltac:(lia) ltac:(lia) ltac:(lia)) as Hb.
  fold (rawSplitOffset L root block t boundaryY maxSteps) in Hb. fold r in Hb.
  split; [exact Hb |].
  destruct (searchLoop_exact L root block t boundaryY maxSteps Hmono
              0 (jsLength (data t)) 0 ltac:(lia) ltac:(lia)
              ltac:(intros; lia) ltac:(intros; lia) ltac:(left; lia) ltac:(lia))
    as [Habove Hfit].
  fold (rawSplitOffset L root block t boundaryY maxSteps) in Habove, Hfit.
  fold r in Habove, Hfit.
  intros off Hoff. split.
  - intros Hf. destruct (Z.le_gt_cases off r) as [Hle | Hgt]; [exact Hle |].
    rewrite (Habove off ltac:(lia)) in Hf. discriminate.
  - intros Hle. destruct (Z.eq_dec r 0) as [Hr0 | Hr0].
    + replace off with 0 by lia. exact Hzero.
    + apply (Hmono off r); [lia | apply Hfit; lia].
Qed.

(** What the layouts of the examples measure: the bottom of the last of the
    lines the offset reaches into. *)
Lemma linesLayout_measure rects h perLine lineHeight root block t offset :
  measureBlockToTextOffsetBottomY (linesLayout rects h perLine lineHeight)
    root block t offset
  = match
      Z.to_nat ((Z.max 0 (Z.min offset (jsLength (data t))) + perLine - 1) / perLine)
    with
    | O => NegInfinity
    | S k =>
        Px (top (rectOf rects (nodeId block)) + lineHeight * (Z.of_nat k + 1)
            - top (rectOf rects (nodeId root)) + 0)
    end.
Proof.
  unfold measureBlockToTextOffsetBottomY, linesLayout, lineBoxes, getRootLocalY.
  cbn [rangeClientRects boundingClientRect scrollTop].
  destruct (Z.to_nat _) as [| k]; [reflexivity |].
  rewrite seq_S, map_app. cbn [List.map Nat.add].
  destruct (List.map _ (seq 0 k)) as [| a l]; cbn [app].
  - reflexivity.
  - rewrite last_last. reflexivity.
Qed.

(** Lines stacked downwards: an offset that fits leaves every earlier offset
    fitting. *)
Lemma linesLayout_growsDownwards rects h perLine lineHeight root block t boundaryY :
  0 < perLine -> 0 <= lineHeight ->
  growsDownwards (linesLayout rects h perLine lineHeight) root block t boundaryY.
Proof.
  intros Hp Hl off off' Hoff. unfold fits. rewrite !linesLayout_measure.
  set (o := Z.max 0 (Z.min off (jsLength (data t)))).
  set (o' := Z.max 0 (Z.min off' (jsLength (data t)))).
  assert (Ho : o <= o') by (unfold o, o'; lia).
  assert (Hk : (o + perLine - 1) / perLine <= (o' + perLine - 1) / perLine)
    by (apply Z.div_le_mono; lia).
  destruct (Z.to_nat ((o + perLine - 1) / perLine)) as [| k] eqn:Ek;
    [reflexivity |].
  destruct (Z.to_nat ((o' + perLine - 1) / perLine)) as [| k'] eqn:Ek'; [lia |].
  cbn [leY]. intros H. apply Z.leb_le in H. apply Z.leb_le.
  assert (Z.of_nat k <= Z.of_nat k') by lia. nia.
Qed.

(** X2 on the run of sixty letters: offsets up to 50 fit above Y = 100, and
    50 is what the search finds in 18 steps. *)
Lemma rawSplitOffset_is_largest_fit_witness :
  0 <= rawSplitOffset longWordLayout longWordRoot longWordBlock longWord 100 18 <= 60
  /\ forall off, 0 <= off <= 60 ->
       (fits longWordLayout longWordRoot longWordBlock longWord 100 off = true
        <-> off <= 50).
Proof.
  exact (rawSplitOffset_is_largest_fit longWordLayout longWordRoot longWordBlock
           longWord 100 18
           (linesLayout_growsDownwards _ _ 10 20 _ _ _ _ eq_refl ltac:(discriminate))
           eq_refl eq_refl).
Defined.

End BinarySearchFacts.

(** ** Split points *)

Module SplitPointFacts.
Import Dom PageCalculations Examples MoreExamples Conditions.

Section WithLayout.

Variable L : Layout.
Variable root : Node.

Lemma scanTextNodes_positive block boundaryY maxSteps texts :
  forall previous t off,
    (forall x, In x texts -> 0 < jsLength (data x)) ->
    (forall p, previous = Some p -> 0 < jsLength (data p)) ->
    scanTextNodes L root block boundaryY maxSteps texts previous = Some (t, off) ->
    0 < off.
Proof.
  induction texts as [| x texts IH]; intros previous t off Hlen Hprev H;
    cbn [scanTextNodes] in H; [discriminate |].
  destruct (leY _ boundaryY).
  - apply (IH (Some x) t off); [| | exact H].
    + intros y Hy. apply Hlen. right. exact Hy.
    + intros p Hp. injection Hp as <-. apply Hlen. left. reflexivity.
  - destruct (binarySearchSplitOffset L root block x boundaryY maxSteps <=? 0) eqn:E.
    + destruct previous as [prev |]; [| discriminate].
      injection H as <- <-. apply Hprev. reflexivity.
    + injection H as <- <-. apply Z.leb_gt in E. exact E.
Qed.

Lemma binarySearchSplitOffset_fits block t boundaryY maxSteps :
  growsDownwards L root block t boundaryY ->
  0 < binarySearchSplitOffset L root block t boundaryY maxSteps ->
  fits L root block t boundaryY
    (binarySearchSplitOffset L root block t boundaryY maxSteps) = true.
Proof.
  intros Hmono. unfold binarySearchSplitOffset.
  destruct (gtY _ boundaryY); [lia |].
  intros Hpos.
  assert (Hlen : 0 <= jsLength (data t)) by (unfold jsLength; lia).
  pose proof (SplitterFacts.searchLoop_bounds L root block t boundaryY maxSteps
                0 (jsLength (data t)) 0 ltac:(lia) ltac:(lia) ltac:(lia)) as Hb.
  pose proof (BinarySearchFacts.searchLoop_zero_or_fits L root block t boundaryY
                maxSteps 0 (jsLength (data t)) 0 (or_introl eq_refl)) as Hraw.
  cbv zeta in Hraw.
  fold (rawSplitOffset L root block t boundaryY maxSteps) in Hb, Hraw.
  pose proof (SplitterFacts.refineToWhiteSpace_bounds (data t) _ (proj1 Hb)) as Hr.
  destruct Hraw as [Hzero | Hfit].
  - rewrite Hzero in Hr, Hpos. lia.
  - apply (Hmono _ (rawSplitOffset L root block t boundaryY maxSteps));
      [lia | exact Hfit].
Qed.

Lemma scanTextNodes_fits block boundaryY maxSteps texts :
  forall previous t off,
    (forall x, In x texts -> growsDownwards L root block x boundaryY) ->
    (forall p, previous = Some p ->
               fits L root block p boundaryY (jsLength (data p)) = true) ->
    scanTextNodes L root block boundaryY maxSteps texts previous = Some (t, off) ->
    fits L root block t boundaryY off = true.
Proof.
  induction texts as [| x texts IH]; intros previous t off Hmono Hprev H;
    cbn [scanTextNodes] in H; [discriminate |].
  destruct (leY (measureBlockToTextOffsetBottomY L root block x (jsLength (data x)))
              boundaryY) eqn:Eend.
  - apply (IH (Some x) t off); [| | exact H].
    + intros y Hy. apply Hmono. right. exact Hy.
    + intros p Hp. injection Hp as <-. exact Eend.
  - destruct (binarySearchSplitOffset L root block x boundaryY maxSteps <=? 0) eqn:E.
    + destruct previous as [prev |]; [| discriminate].
      injection H as <- <-. apply Hprev. reflexivity.
    + injection H as <- <-. apply Z.leb_gt in E.
      apply binarySearchSplitOffset_fits; [| exact E].
      apply Hmono. left. reflexivity.
Qed.

End WithLayout.

(** X3: a split point that [findSplitPointWithinBlock] returns names a text
    node of the block and an offset from 1 to the length of its data: the
    part before the split is never empty. *)
Theorem splitPoint_inside_block L root block boundaryY maxSteps t off :
  findSplitPointWithinBlock L root block boundaryY maxSteps = Some (t, off) ->
  In t (textsOf block) /\ 0 < off <= jsLength (data t).
Proof.
  intros H.
  pose proof (SplitterFacts.findSplitPointWithinBlock_in _ _ _ _ _ _ _ H) as [Hin Hoff].
  split; [exact Hin |]. split; [| lia].
  unfold findSplitPointWithinBlock in H.
  destruct (caretSplitPoint L root block boundaryY) as [[t0 off0] |] eqn:Hc.
  - injection H as <- <-.
    apply SplitterFacts.caretSplitPoint_in in Hc as (_ & Hpos & _). lia.
  - apply (scanTextNodes_positive L root block boundaryY maxSteps
             (walkTextNodes block) None t off);
      [| discriminate | exact H].
    intros x Hx. apply (SplitterFacts.walkTextNodes_nonempty block). exact Hx.
Qed.

Lemma splitPoint_inside_block_witness :
  In (words 13) (textsOf (paragraph 3 [TextNode (words 13)]))
  /\ 0 < 20 <= jsLength (data (words 13)).
Proof.
  exact (splitPoint_inside_block textLayout textParagraphs
           (paragraph 3 [TextNode (words 13)]) 864 18 (words 13) 20 eq_refl).
Defined.

(** X4: when the layout grows downwards along every text node of the block,
    the content of the block up to the split point that
    [findSplitPointWithinBlock] returns ends at or above the boundary, on the
    fast path and on the fallback, whitespace backtracking included. *)
Theorem splitPoint_fits L root block boundaryY maxSteps t off :
  (forall x, In x (textsOf block) -> growsDownwards L root block x boundaryY) ->
  findSplitPointWithinBlock L root block boundaryY maxSteps = Some (t, off) ->
  fits L root block t boundaryY off = true.
Proof.
  intros Hmono H. unfold findSplitPointWithinBlock in H.
  destruct (caretSplitPoint L root block boundaryY) as [[t0 off0] |] eqn:Hc.
  - injection H as <- <-.
    apply SplitterFacts.caretSplitPoint_in in Hc as (_ & _ & Hfit). exact Hfit.
  - apply (scanTextNodes_fits L root block boundaryY maxSteps
             (walkTextNodes block) None t off);
      [| discriminate | exact H].
    intros x Hx. apply Hmono. apply SplitterFacts.walkTextNodes_texts. exact Hx.
Qed.

Lemma splitPoint_fits_witness :
  fits textLayout textParagraphs (paragraph 3 [TextNode (words 13)]) (words 13) 864 20
  = true.
Proof.
  refine (splitPoint_fits textLayout textParagraphs
            (paragraph 3 [TextNode (words 13)]) 864 18 (words 13) 20 _ eq_refl).
  intros x _.
  apply (BinarySearchFacts.linesLayout_growsDownwards threeRects 900 10 100);
    [reflexivity | discriminate].
Defined.

(** X5: [normalizeCaretToTextPosition] answers nothing for a caret whose
    node is not inside the block, and otherwise only with a text node of the
    block and an offset clamped into its data. *)
Theorem caret_normalised_inside_block block caret :
  (findNode (fst caret) block = None ->
   normalizeCaretToTextPosition block caret = None)
  /\ forall t off,
       normalizeCaretToTextPosition block caret = Some (t, off) ->
       In t (textsOf block) /\ 0 <= off <= jsLength (data t).
Proof.
  split.
  - intros H. unfold normalizeCaretToTextPosition. rewrite H. reflexivity.
  - intros t off H. apply (SplitterFacts.normalizeCaret_in block caret t off H).
Qed.

(** X5 on the paragraph of two runs: a caret far past the end of the first
    text is clamped to its end, a caret on the paragraph before its second
    child goes to the start of the text inside that child, and a caret in a
    node outside the paragraph is refused. *)
Lemma caret_normalised_inside_block_witness :
  normalizeCaretToTextPosition twoRuns (10%nat, 500)
  = Some (mkText 10 (ofString "aaaa bbbb "), 10)
  /\ normalizeCaretToTextPosition twoRuns (1%nat, 1)
     = Some (mkText 12 (ofString "cccc dddd "), 0)
  /\ normalizeCaretToTextPosition twoRuns (13%nat, 4) = None
  /\ In (mkText 10 (ofString "aaaa bbbb ")) (textsOf twoRuns)
  /\ 0 <= 10 <= jsLength (data (mkText 10 (ofString "aaaa bbbb "))).
Proof.
  split; [reflexivity |]. split; [reflexivity |]. split.
  - exact (proj1 (caret_normalised_inside_block twoRuns (13%nat, 4)) eq_refl).
  - exact (proj2 (caret_normalised_inside_block twoRuns (10%nat, 500))
                 (mkText 10 (ofString "aaaa bbbb ")) 10 eq_refl).
Defined.

(** X6: the tree walker never yields the node it starts from, so a caret on
    an element whose children are all text nodes is not resolved to any of
    them: [normalizeCaretToTextPosition] answers nothing. *)
Theorem caret_on_element_of_texts block caret id tag cs :
  findNode (fst caret) block = Some (ElementNode id tag cs) ->
  Forall (fun c => exists t, c = TextNode t) cs ->
  normalizeCaretToTextPosition block caret = None.
Proof.
  intros Hfind Hcs. unfold normalizeCaretToTextPosition. rewrite Hfind.
  assert (Hfirst : forall c, In c cs -> getFirstTextDescendant c = None).
  { intros c Hc. rewrite Forall_forall in Hcs. destruct (Hcs c Hc) as [t ->].
    reflexivity. }
  assert (Hlast : forall c, In c cs -> getLastTextDescendant c = None).
  { intros c Hc. rewrite Forall_forall in Hcs. destruct (Hcs c Hc) as [t ->].
    reflexivity. }
  set (i := Z.to_nat _). clearbody i.
  assert (Hprev : forall n, lastTextInPreviousSiblings cs n = None).
  { induction n as [| n IH]; cbn [lastTextInPreviousSiblings]; [reflexivity |].
    destruct (nth_error cs n) as [prev |] eqn:Hn; [| exact IH].
    rewrite (Hlast prev (nth_error_In _ _ Hn)). exact IH. }
  destruct (nth_error cs i) as [child |] eqn:Hchild.
  - rewrite (Hfirst child (nth_error_In _ _ Hchild)). apply Hprev.
  - apply Hprev.
Qed.

(** X6 on the third paragraph of scenario A, whose only child is its text: a
    caret on the paragraph itself is not resolved. *)
Lemma caret_on_element_of_texts_witness :
  normalizeCaretToTextPosition (paragraph 3 [TextNode (words 13)]) (3%nat, 0) = None.
Proof.
  refine (caret_on_element_of_texts (paragraph 3 [TextNode (words 13)]) (3%nat, 0)
            3%nat "p"%string [TextNode (words 13)] eq_refl _).
  constructor; [eexists; reflexivity | constructor].
Defined.

End SplitPointFacts.

(** ** More on the engine *)

Module EngineMoreFacts.
Import Dom PageCalculations Examples MoreExamples Conditions LoopFacts.

Section Loop.

Variable L : Layout.
Variable root : Node.
Variable stride : Z.
Variable maxSteps : nat.

(** A block either fits and leaves the state alone, or adds at least one
    break. *)
Lemma paginateBlock_grows fuel st block st' :
  paginateBlock L root fuel stride maxSteps st block = Some st' ->
  (snd (getElementTopBottomY L root block) <= fst st /\ st' = st)
  \/ (fst st < snd (getElementTopBottomY L root block)
      /\ (List.length (snd st) < List.length (snd st'))%nat).
Proof.
  unfold paginateBlock.
  destruct (getElementTopBottomY L root block) as [topY bottomY]. cbn [fst snd].
  destruct (bottomY <=? fst st) eqn:E.
  - intros H. injection H as <-. left. apply Z.leb_le in E. split; [exact E | reflexivity].
  - apply Z.leb_gt in E. intros H. right. split; [exact E |].
    destruct (skipPages fuel block topY stride st) as [st1 |] eqn:Hs; [| discriminate].
    apply skipPages_spec in Hs as (k & -> & _).
    cbn [fst snd] in H.
    destruct (findSplitPointWithinBlock _ _ _ _ _); injection H as <-;
      cbn [snd]; rewrite !length_app; cbn [List.length]; lia.
Qed.

Lemma paginateBlocks_grows fuel blocks :
  forall st st',
    paginateBlocks L root fuel stride maxSteps blocks st = Some st' ->
    (List.length (snd st) <= List.length (snd st'))%nat
    /\ (Forall (fun b => snd (getElementTopBottomY L root b) <= fst st) blocks ->
        st' = st)
    /\ (Exists (fun b => ~ snd (getElementTopBottomY L root b) <= fst st) blocks ->
        (List.length (snd st) < List.length (snd st'))%nat).
Proof.
  induction blocks as [| b blocks IH]; intros st st' H; cbn [paginateBlocks] in H.
  - injection H as <-. split; [lia |]. split; [reflexivity |].
    intros Hex. inversion Hex.
  - destruct (paginateBlock L root fuel stride maxSteps st b) as [st1 |] eqn:Hb;
      [| discriminate].
    destruct (IH st1 st' H) as (Hle & Hall & Hex).
    destruct (paginateBlock_grows fuel st b st1 Hb) as [[Hfit ->] | [Hnot Hlt]].
    + split; [exact Hle |]. split.
      * intros Hf. inversion Hf; subst. apply Hall. assumption.
      * intros He. inversion He; subst; [contradiction | apply Hex; assumption].
    + split; [lia |]. split.
      * intros Hf. inversion Hf; subst. lia.
      * intros _. lia.
Qed.

(** With a stride that is not positive, the [while] loop of a block that
    starts at or below the boundary never ends. *)
Lemma skipPages_diverges block topY :
  stride <= 0 ->
  forall fuel st, fst st <= topY -> skipPages fuel block topY stride st = None.
Proof.
  intros Hs. induction fuel as [| fuel IH]; intros st Hst; cbn [skipPages];
    (replace (topY >=? fst st) with true
       by (symmetry; rewrite Z.geb_leb; apply Z.leb_le; exact Hst)).
  - reflexivity.
  - apply IH. cbn [fst]. lia.
Qed.

Lemma paginateBlocks_fitting fuel fitting :
  forall rest st,
    Forall (fun b => snd (getElementTopBottomY L root b) <= fst st) fitting ->
    paginateBlocks L root fuel stride maxSteps (fitting ++ rest) st
    = paginateBlocks L root fuel stride maxSteps rest st.
Proof.
  induction fitting as [| b fitting IH]; intros rest st Hfit; [reflexivity |].
  inversion Hfit; subst. cbn [app paginateBlocks].
  rewrite StraddleFacts.paginateBlock_fits by assumption. apply IH. assumption.
Qed.

End Loop.

Lemma Forall2_concat_in {A B} (Q : A -> B -> Prop) l parts :
  Forall2 (fun b part => Forall (Q b) part) l parts ->
  forall a, In a (List.concat parts) -> exists b, In b l /\ Q b a.
Proof.
  induction 1 as [| b part l parts Hpart _ IH]; intros a Ha; cbn [List.concat] in Ha.
  - destruct Ha.
  - apply in_app_or in Ha as [Ha | Ha].
    + exists b. split; [left; reflexivity |].
      rewrite Forall_forall in Hpart. apply Hpart. exact Ha.
    + destruct (IH a Ha) as (b' & Hb' & Hq). exists b'. split; [right |]; assumption.
Qed.

(** X7: the result has no break exactly when every pagination unit ends at
    or above the bottom of the first page; in particular a root without
    units gets none. *)
Theorem no_breaks_iff_all_fit L root fuel options r :
  computePageBreaks L root fuel options = Some r ->
  (breaks r = []
   <-> Forall (fun b => snd (getElementTopBottomY L root b) <= firstPageBottom options)
              (blocksOf L root options)).
Proof.
  intros H. apply EngineFacts.computePageBreaks_Some in H as (st & Hst & Hb & _).
  destruct (paginateBlocks_grows L root _ _ fuel _ _ _ Hst) as (_ & Hall & Hex).
  cbn [fst snd List.length] in Hall, Hex. rewrite Hb. split.
  - intros Hnil.
    destruct (Forall_Exists_dec
                (fun b => snd (getElementTopBottomY L root b) <= firstPageBottom options)
                (fun b => Z_le_dec _ _) (blocksOf L root options)) as [Hf | He];
      [exact Hf |].
    specialize (Hex He). rewrite Hnil in Hex. cbn in Hex. lia.
  - intros Hf. rewrite (Hall Hf). reflexivity.
Qed.

(** X7 on two paragraphs of scenario A alone: both end above 864, and there
    is no break. *)
Lemma no_breaks_iff_all_fit_witness :
  exists r,
    computePageBreaks textLayout twoParagraphs 0 letterOptions = Some r
    /\ breaks r = [].
Proof.
  destruct (computePageBreaks textLayout twoParagraphs 0 letterOptions) as [r |] eqn:Hr;
    [| discriminate].
  exists r. split; [reflexivity |].
  refine (proj2 (no_breaks_iff_all_fit textLayout twoParagraphs 0 letterOptions r Hr) _).
  repeat constructor; discriminate.
Defined.

(** X8: every break of a result belongs to a pagination unit the engine
    selected: an element below the root that matches the block selector and
    has a rendered area; the break is placed before that element or inside
    one of its text nodes.  An element without width or height never gets a
    break. *)
Theorem breaks_belong_to_visible_units L root fuel options r a :
  computePageBreaks L root fuel options = Some r ->
  In a (breaks r) ->
  exists block,
    In block (flat_map elementsOf (childNodesOf root))
    /\ matchesSelector (orDefault (blockSelector options) DEFAULT_BLOCK_SELECTOR) block
       = true
    /\ 0 < width (boundingClientRect L (nodeId block))
    /\ 0 < height (boundingClientRect L (nodeId block))
    /\ anchorIn block a.
Proof.
  intros H Ha.
  apply EngineFacts.computePageBreaks_wellPaged in H as (_ & parts & Hparts & Hall).
  rewrite Hparts in Ha.
  destruct (Forall2_concat_in anchorIn _ _ Hall a Ha) as (block & Hblock & Hin).
  exists block. unfold blocksOf in Hblock.
  apply filter_In in Hblock as [Hsel Hvis].
  unfold querySelectorAll in Hsel. apply filter_In in Hsel as [Hdesc Hmatch].
  unfold isVisibleElement in Hvis. apply andb_prop in Hvis as [Hw Hh].
  apply Z.ltb_lt in Hw. apply Z.ltb_lt in Hh.
  repeat split; assumption.
Qed.

Lemma breaks_belong_to_visible_units_witness :
  exists block,
    In block (flat_map elementsOf (childNodesOf textParagraphs))
    /\ matchesSelector DEFAULT_BLOCK_SELECTOR block = true
    /\ 0 < width (boundingClientRect textLayout (nodeId block))
    /\ 0 < height (boundingClientRect textLayout (nodeId block))
    /\ anchorIn block (TextOffset (words 13) 20 864).
Proof.
  exact (breaks_belong_to_visible_units textLayout textParagraphs 0 letterOptions
           _ (TextOffset (words 13) 20 864) eq_refl (or_introl eq_refl)).
Defined.

(** X9: with a page stride that is not positive, [computePageBreaks] does
    not return as soon as one unit that does not fit on the first page
    starts at or below its bottom: the [while] loop runs for ever. *)
Theorem nonpositive_stride_never_returns L root options fitting block rest :
  strideOf options <= 0 ->
  blocksOf L root options = fitting ++ block :: rest ->
  Forall (fun b => snd (getElementTopBottomY L root b) <= firstPageBottom options)
         fitting ->
  firstPageBottom options < snd (getElementTopBottomY L root block) ->
  firstPageBottom options <= fst (getElementTopBottomY L root block) ->
  forall fuel, computePageBreaks L root fuel options = None.
Proof.
  intros Hs Hblocks Hfit Hbottom Htop fuel.
  unfold computePageBreaks. rewrite Hblocks.
  rewrite paginateBlocks_fitting by exact Hfit.
  cbn [paginateBlocks]. unfold paginateBlock.
  destruct (getElementTopBottomY L root block) as [topY bottomY]. cbn [fst snd] in *.
  replace (bottomY <=? firstPageBottom options) with false
    by (symmetry; apply Z.leb_gt; exact Hbottom).
  rewrite skipPages_diverges by assumption. reflexivity.
Qed.

(** X9 on scenario A with a page height of 0: the first paragraph starts at
    the boundary, and a thousand iterations give no result. *)
Lemma nonpositive_stride_never_returns_witness :
  computePageBreaks textLayout textParagraphs 1000 flatOptions = None.
Proof.
  refine (nonpositive_stride_never_returns textLayout textParagraphs flatOptions
            [] (paragraph 1 [TextNode (words 11)])
            [paragraph 2 [TextNode (words 12)]; paragraph 3 [TextNode (words 13)]]
            _ eq_refl _ eq_refl _ 1000%nat).
  - discriminate.
  - constructor.
  - discriminate.
Defined.

End EngineMoreFacts.

(** ** More on the break projection layer *)

Module ProjectionFacts.
Import Dom PageCalculations Pagination Editor Examples MoreExamples Conditions.

Lemma arrayFilter_dedupAfter l :
  arrayFilter differsFromPrevious l = dedupAfter None l.
Proof.
  unfold arrayFilter.
  exact (PaginationFacts.filterFrom_dedupAfter l [] None eq_refl).
Qed.

Lemma dedupAfter_in previous l x :
  In x (dedupAfter previous l) -> In x l.
Proof.
  revert previous. induction l as [| p l IH]; intros previous H; cbn [dedupAfter] in H;
    [exact H |].
  destruct previous as [q |].
  - destruct (p =? q).
    + right. apply (IH _ H).
    + destruct H as [<- | H]; [left; reflexivity | right; apply (IH _ H)].
  - destruct H as [<- | H]; [left; reflexivity | right; apply (IH _ H)].
Qed.

Lemma in_dedupAfter previous l x :
  In x l -> In x (dedupAfter previous l) \/ previous = Some x.
Proof.
  revert previous. induction l as [| p l IH]; intros previous H; [destruct H |].
  cbn [dedupAfter].
  destruct H as [<- | H].
  - destruct previous as [q |]; [| left; left; reflexivity].
    destruct (p =? q) eqn:E; [| left; left; reflexivity].
    apply Z.eqb_eq in E. subst q. right. reflexivity.
  - destruct (IH (Some p) H) as [Hin | Hp].
    + left. destruct previous as [q |]; [destruct (p =? q) |];
        try (right; exact Hin); exact Hin.
    + injection Hp as ->.
      destruct previous as [q |]; [| left; left; reflexivity].
      destruct (x =? q) eqn:E; [| left; left; reflexivity].
      apply Z.eqb_eq in E. subst q. right. reflexivity.
Qed.

(** After the filter no position equals the one before it, nor the one the
    filter started from. *)
Lemma dedupAfter_noAdjacentRepeat l :
  forall previous,
    noAdjacentRepeat (dedupAfter previous l)
    /\ forall q, previous = Some q ->
         match dedupAfter previous l with
         | [] => True
         | p :: _ => p <> q
         end.
Proof.
  induction l as [| p l IH]; intros previous; cbn [dedupAfter].
  - destruct previous; split; try exact I; intros; exact I.
  - destruct (IH (Some p)) as [Hno Hhead].
    assert (Hcons : noAdjacentRepeat (p :: dedupAfter (Some p) l)).
    { cbn [noAdjacentRepeat]. specialize (Hhead p eq_refl).
      destruct (dedupAfter (Some p) l) as [| p' l']; [exact I |].
      split; [intros ->; apply Hhead; reflexivity | exact Hno]. }
    destruct previous as [q |].
    + destruct (p =? q) eqn:E.
      * apply Z.eqb_eq in E. subst q. split; [exact Hno |].
        intros q Hq. injection Hq as <-. apply Hhead. reflexivity.
      * apply Z.eqb_neq in E. split; [exact Hcons |].
        intros q' Hq. injection Hq as <-. exact E.
    + split; [exact Hcons | intros q Hq; discriminate].
Qed.

Lemma dedupAfter_fixed l :
  forall previous,
    noAdjacentRepeat l ->
    (forall q, previous = Some q -> match l with [] => True | p :: _ => p <> q end) ->
    dedupAfter previous l = l.
Proof.
  induction l as [| p l IH]; intros previous Hno Hhead; [reflexivity |].
  cbn [dedupAfter].
  assert (Hrest : dedupAfter (Some p) l = l).
  { apply IH.
    - cbn [noAdjacentRepeat] in Hno. destruct l; [exact I | apply Hno].
    - intros q Hq. injection Hq as <-. cbn [noAdjacentRepeat] in Hno.
      destruct l as [| p' l']; [exact I |]. intros ->. apply (proj1 Hno). reflexivity. }
  rewrite Hrest.
  destruct previous as [q |]; [| reflexivity].
  specialize (Hhead q eq_refl). cbn in Hhead.
  destruct (p =? q) eqn:E; [apply Z.eqb_eq in E; contradiction | reflexivity].
Qed.

Lemma dedupAfter_sorted l :
  forall q, Sorted Z.le (q :: l) -> Sorted Z.lt (q :: dedupAfter (Some q) l).
Proof.
  induction l as [| p l IH]; intros q Hs; cbn [dedupAfter].
  - constructor; constructor.
  - inversion Hs as [| ? ? Hrest Hhd]; subst. inversion Hhd; subst.
    destruct (p =? q) eqn:E.
    + apply Z.eqb_eq in E. subst q. apply IH. exact Hrest.
    + apply Z.eqb_neq in E. constructor; [apply IH; exact Hrest |].
      constructor. lia.
Qed.

Lemma dedupAfter_None_sorted l :
  Sorted Z.le l -> StronglySorted Z.lt (dedupAfter None l).
Proof.
  intros Hs. apply Sorted_StronglySorted; [intros x y z; apply Z.lt_trans |].
  destruct l as [| p l]; cbn [dedupAfter]; [constructor |].
  apply dedupAfter_sorted. exact Hs.
Qed.

Lemma map_clamp_sorted size l :
  Sorted Z.le l -> Sorted Z.le (List.map (fun p => Z.max 0 (Z.min p size)) l).
Proof.
  induction 1 as [| p l Hs IH Hhd]; cbn [List.map]; constructor; [exact IH |].
  destruct Hhd as [| q l' Hpq]; cbn [List.map]; constructor. lia.
Qed.

(** X10: whatever positions a new-break-set instruction carries, every
    spacer the plugin builds stands inside the document, from position 0 to
    its size. *)
Theorem spacers_inside_document tr prev oldState newState meta :
  getMeta tr = Some meta ->
  0 <= contentSize (stateDoc newState) ->
  Forall (fun w => 0 <= pos w <= contentSize (stateDoc newState))
         (decorations (apply tr prev oldState newState)).
Proof.
  intros Hm Hs. rewrite (PaginationFacts.apply_with_meta _ _ _ _ _ Hm Hs).
  unfold DecorationSet.create, specSpacers.
  apply Forall_app; split; [| apply Forall_app; split].
  - destruct (0 <? topSpacerPx meta); constructor; [cbn [pos]; lia | constructor].
  - destruct (0 <? bottomSpacerPx meta); constructor; [cbn [pos]; lia | constructor].
  - destruct (0 <? betweenSpacerPx meta); [| constructor].
    apply Forall_forall. intros w Hw. apply in_map_iff in Hw as (p & <- & Hp).
    cbn [pos]. rewrite <- PaginationFacts.dedupAfter_None in Hp.
    apply dedupAfter_in in Hp. apply in_map_iff in Hp as (p0 & <- & _).
    unfold clampInto. destruct (p0 <? 0) eqn:E1; [lia |].
    apply Z.ltb_ge in E1.
    destruct (contentSize (stateDoc newState) <? p0) eqn:E2;
      [apply Z.ltb_lt in E2 | apply Z.ltb_ge in E2]; lia.
Qed.

Lemma spacers_inside_document_witness :
  Forall (fun w => 0 <= pos w <= 30)
         (decorations (apply setBreaksTr init (mkState someDoc) (mkState someDoc))).
Proof.
  exact (spacers_inside_document setBreaksTr init (mkState someDoc) (mkState someDoc)
           someMeta eq_refl ltac:(discriminate)).
Defined.

(** X11: the positions the plugin keeps never hold the same position twice
    in a row, they are the clamped positions that were supplied, none added,
    and clamping and filtering them again changes nothing. *)
Theorem clampPositions_settles size positions :
  noAdjacentRepeat (clampPositions size positions)
  /\ (forall p, In p (clampPositions size positions) <->
                exists p0, In p0 positions /\ p = Z.max 0 (Z.min p0 size))
  /\ clampPositions size (clampPositions size positions)
     = clampPositions size positions.
Proof.
  unfold clampPositions. rewrite !arrayFilter_dedupAfter.
  set (clamp := fun p => Z.max 0 (Z.min p size)).
  set (kept := dedupAfter None (List.map clamp positions)).
  assert (Hno : noAdjacentRepeat kept) by apply dedupAfter_noAdjacentRepeat.
  assert (Hin : forall p, In p kept -> exists p0, In p0 positions /\ p = clamp p0).
  { intros p Hp. apply dedupAfter_in in Hp. apply in_map_iff in Hp as (p0 & <- & Hp0).
    exists p0. split; [exact Hp0 | reflexivity]. }
  split; [exact Hno |]. split.
  - intros p. split; [apply Hin |].
    intros (p0 & Hp0 & ->).
    destruct (in_dedupAfter None (List.map clamp positions) (clamp p0)
                (in_map clamp _ _ Hp0)) as [H | H]; [exact H | discriminate].
  - assert (Hfix : List.map clamp kept = kept).
    { rewrite <- (map_id kept) at 2. apply map_ext_in.
      intros p Hp. destruct (Hin p Hp) as (p0 & _ & ->). unfold clamp. lia. }
    rewrite Hfix. apply dedupAfter_fixed; [exact Hno | discriminate].
Qed.

(** X12: handed positions in ascending order, as the editor component hands
    them, the plugin keeps strictly increasing positions: no two break
    spacers share a position, also when several positions were clamped to
    the same end of the document. *)
Theorem clampPositions_sorted size positions :
  Sorted Z.le positions ->
  StronglySorted Z.lt (clampPositions size positions).
Proof.
  intros Hs. unfold clampPositions. rewrite arrayFilter_dedupAfter.
  apply dedupAfter_None_sorted, map_clamp_sorted. exact Hs.
Qed.

Lemma clampPositions_sorted_witness :
  StronglySorted Z.lt (clampPositions 30 [-3; 5; 5; 12; 40; 41]).
Proof.
  apply (clampPositions_sorted 30 [-3; 5; 5; 12; 40; 41]).
  repeat constructor; discriminate.
Defined.

(** *** [anchorsToDocPositions] *)

Lemma insertSorted_perm x l : Permutation (insertSorted x l) (x :: l).
Proof.
  induction l as [| y l IH]; cbn [insertSorted]; [reflexivity |].
  destruct (x <=? y); [reflexivity |].
  rewrite IH. apply perm_swap.
Qed.

Lemma sortNumbers_perm l : Permutation (sortNumbers l) l.
Proof.
  induction l as [| x l IH]; cbn [sortNumbers]; [reflexivity |].
  rewrite insertSorted_perm, IH. reflexivity.
Qed.

Lemma insertSorted_sorted x l : Sorted Z.le l -> Sorted Z.le (insertSorted x l).
Proof.
  induction 1 as [| y l Hs IH Hhd]; cbn [insertSorted].
  - repeat constructor.
  - destruct (x <=? y) eqn:E.
    + apply Z.leb_le in E. repeat constructor; assumption.
    + apply Z.leb_gt in E. constructor; [exact IH |].
      destruct Hhd as [| z l' Hyz]; cbn [insertSorted].
      * constructor. lia.
      * destruct (x <=? z); constructor; lia.
Qed.

Lemma sortNumbers_sorted l : Sorted Z.le (sortNumbers l).
Proof.
  induction l as [| x l IH]; cbn [sortNumbers]; [constructor |].
  apply insertSorted_sorted. exact IH.
Qed.

Lemma collectPositions_in posAtDOM anchors :
  forall acc p,
    In p (collectPositions posAtDOM anchors acc)
    <-> In p acc \/ exists a, In a anchors /\ anchorPosition posAtDOM a = Some p.
Proof.
  induction anchors as [| a anchors IH]; intros acc p; cbn [collectPositions].
  - split; [intros H; left; exact H | intros [H | (a & [] & _)]; exact H].
  - destruct (anchorPosition posAtDOM a) as [q |] eqn:Ha; rewrite IH.
    + rewrite in_app_iff. cbn [In]. split.
      * intros [[H | [<- | []]] | (b & Hb & Hp)].
        -- left. exact H.
        -- right. exists a. split; [left; reflexivity | exact Ha].
        -- right. exists b. split; [right; exact Hb | exact Hp].
      * intros [H | (b & [<- | Hb] & Hp)].
        -- left. left. exact H.
        -- left. right. left. congruence.
        -- right. exists b. split; assumption.
    + split.
      * intros [H | (b & Hb & Hp)]; [left; exact H |].
        right. exists b. split; [right; exact Hb | exact Hp].
      * intros [H | (b & [<- | Hb] & Hp)]; [left; exact H | congruence |].
        right. exists b. split; assumption.
Qed.

(** X13: [anchorsToDocPositions] returns nothing without an editor view;
    with one it returns, in strictly increasing order, exactly the positions
    of the anchors the editor can map: an anchor it cannot map is left out,
    and a position several anchors share appears once. *)
Theorem anchorsToDocPositions_sorted_set posAtDOM hasView anchors :
  (hasView = false -> anchorsToDocPositions posAtDOM hasView anchors = [])
  /\ StronglySorted Z.lt (anchorsToDocPositions posAtDOM hasView anchors)
  /\ (hasView = true ->
      forall p,
        In p (anchorsToDocPositions posAtDOM hasView anchors)
        <-> exists a, In a anchors /\ anchorPosition posAtDOM a = Some p).
Proof.
  unfold anchorsToDocPositions. split; [intros ->; reflexivity |].
  destruct hasView; cbn [negb]; [| split; [constructor | discriminate]].
  rewrite arrayFilter_dedupAfter. split.
  - apply dedupAfter_None_sorted, sortNumbers_sorted.
  - intros _ p. split.
    + intros Hp. apply dedupAfter_in in Hp.
      apply (Permutation_in _ (sortNumbers_perm _)) in Hp.
      apply collectPositions_in in Hp as [[] | Hp]. exact Hp.
    + intros Hp.
      assert (Hc : In p (collectPositions posAtDOM anchors []))
        by (apply collectPositions_in; right; exact Hp).
      apply (Permutation_in _ (Permutation_sym (sortNumbers_perm _))) in Hc.
      destruct (in_dedupAfter None _ _ Hc) as [H | H]; [exact H | discriminate].
Qed.

(** X13 on the breaks of the paragraph below a figure: both before-element
    breaks map to the paragraph's position 3, the text-offset break to 14,
    and so the editor hands the plugin the positions 3 and 14. *)
Lemma anchorsToDocPositions_sorted_set_witness :
  anchorsToDocPositions figurePositions true
    [ BeforeElement (paragraph 2 [TextNode (mkText 20 (ofString "aaaa bbbb cccc dddd "))]) 100;
      BeforeElement (paragraph 2 [TextNode (mkText 20 (ofString "aaaa bbbb cccc dddd "))]) 200;
      BeforeElement (image 10) 250;
      TextOffset (mkText 20 (ofString "aaaa bbbb cccc dddd ")) 10 300 ]
  = [3; 14]
  /\ StronglySorted Z.lt
       (anchorsToDocPositions figurePositions true
          [ BeforeElement (paragraph 2 [TextNode (mkText 20 (ofString "aaaa bbbb cccc dddd "))]) 100;
            BeforeElement (paragraph 2 [TextNode (mkText 20 (ofString "aaaa bbbb cccc dddd "))]) 200;
            BeforeElement (image 10) 250;
            TextOffset (mkText 20 (ofString "aaaa bbbb cccc dddd ")) 10 300 ]).
Proof.
  split; [reflexivity |].
  exact (proj1 (proj2 (anchorsToDocPositions_sorted_set figurePositions true _))).
Defined.

End ProjectionFacts.

(** ** More on the scheduler *)

Module SchedulerMoreFacts.
Import UsePagination Examples MoreExamples Conditions.

Lemma filter_shrinks {A} (f : A -> bool) l x :
  In x l -> f x = false -> (List.length (filter f l) < List.length l)%nat.
Proof.
  induction l as [| y l IH]; intros Hin Hx; [destruct Hin |].
  cbn [filter List.length].
  pose proof (filter_length_le f l) as Hle.
  destruct Hin as [-> | Hin].
  - rewrite Hx. lia.
  - specialize (IH Hin Hx). destruct (f y); cbn [List.length]; lia.
Qed.

Section Hook.

Variable hasRoot : bool.
Variable debounceMs : Z.

Lemma scheduleRecompute_load w :
  (load (scheduleRecompute hasRoot debounceMs w) <= load w + 1)%nat.
Proof.
  destruct w as [[clock next ts fs] [destroyed tid rid cs]].
  unfold scheduleRecompute, load. destruct hasRoot; cbn [negb]; [| lia].
  destruct destroyed; cbn [destroyedRef]; [lia |].
  destruct tid as [h |]; cbn; rewrite length_app; cbn [List.length];
    [pose proof (filter_length_le (fun e : nat * Z => negb (Nat.eqb (fst e) h)) ts) |];
    lia.
Qed.

Lemma recomputeNow_load w :
  (load (recomputeNow hasRoot w) <= load w + 1)%nat.
Proof.
  destruct w as [[clock next ts fs] [destroyed tid rid cs]].
  unfold recomputeNow, load. destruct hasRoot; cbn [negb]; [| lia].
  destruct destroyed; cbn [destroyedRef]; [lia |].
  destruct rid as [h |]; cbn; rewrite length_app; cbn [List.length];
    [pose proof (filter_length_le (fun e : nat => negb (Nat.eqb e h)) fs) |];
    lia.
Qed.

Lemma frameCallback_load w : (load (frameCallback w) <= load w + 1)%nat.
Proof.
  destruct w as [[clock next ts fs] [destroyed tid rid cs]].
  unfold frameCallback, load. cbn [withRafId destroyedRef].
  destruct destroyed; cbn; lia.
Qed.

Lemma effectCleanup_load w : (load (effectCleanup w) <= load w)%nat.
Proof.
  destruct w as [[clock next ts fs] [destroyed tid rid cs]].
  unfold effectCleanup, load.
  destruct tid as [h |], rid as [r |]; cbn;
    try pose proof (filter_length_le (fun e : nat * Z => negb (Nat.eqb (fst e) h)) ts);
    try pose proof (filter_length_le (fun e : nat => negb (Nat.eqb e r)) fs);
    lia.
Qed.

Lemma effectMount_load w : (load (effectMount hasRoot debounceMs w) <= load w + 1)%nat.
Proof.
  destruct w as [b k].
  pose proof (scheduleRecompute_load (b, withDestroyed k false)) as Hs.
  unfold effectMount. revert Hs. destruct hasRoot; cbn [negb]; intros Hs.
  - eapply Nat.le_trans; [exact Hs |].
    destruct b, k. unfold load. cbn. lia.
  - destruct b, k. unfold load. cbn. lia.
Qed.

(** An event adds at most what it asks for to the recomputations run or
    under way. *)
Lemma step_load w e w' :
  step hasRoot debounceMs w e = Some w' ->
  (load w' <= load w + triggers e)%nat.
Proof.
  destruct w as [b k]. destruct e as [| dt | h | h | |]; cbn [step triggers]; intros H.
  - injection H as <-. exact (scheduleRecompute_load (b, k)).
  - destruct (dt <? 0); [discriminate |]. injection H as <-.
    unfold load. cbn. lia.
  - unfold dueTimeOf in H.
    destruct (find (fun e => Nat.eqb (fst e) h) (timeouts b)) as [e |] eqn:Hfind;
      [| discriminate].
    destruct (snd e <=? now b); [| discriminate]. injection H as <-.
    apply find_some in Hfind as [Hin Hh].
    pose proof (filter_shrinks (fun e : nat * Z => negb (Nat.eqb (fst e) h))
                  (timeouts b) e Hin ltac:(cbv beta; rewrite Hh; reflexivity)) as Hlt.
    pose proof (recomputeNow_load (clearTimeout b h, withTimeoutId k None)) as Hr.
    assert (Hless : (load (clearTimeout b h, withTimeoutId k None) < load (b, k))%nat).
    { destruct b as [clock next ts fs], k as [destroyed tid rid cs].
      unfold load. cbn [fst snd clearTimeout withTimeoutId timeouts
                        animationFrames computedAt] in *. lia. }
    eapply Nat.le_trans; [exact Hr | lia].
  - destruct (existsb (Nat.eqb h) (animationFrames b)) eqn:Hex; [| discriminate].
    injection H as <-.
    apply existsb_exists in Hex as (x & Hin & Hx). apply Nat.eqb_eq in Hx. subst x.
    pose proof (filter_shrinks (fun e : nat => negb (Nat.eqb e h))
                  (animationFrames b) h Hin ltac:(cbv beta; rewrite Nat.eqb_refl; reflexivity))
      as Hlt.
    assert (Hless : (load (cancelAnimationFrame b h, k) < load (b, k))%nat).
    { destruct b as [clock next ts fs], k as [destroyed tid rid cs].
      unfold load. cbn [fst snd cancelAnimationFrame timeouts
                        animationFrames computedAt] in *. lia. }
    eapply Nat.le_trans;
      [exact (frameCallback_load (cancelAnimationFrame b h, k)) | lia].
  - injection H as <-.
    eapply Nat.le_trans; [exact (effectCleanup_load (b, k)) | lia].
  - injection H as <-.
    eapply Nat.le_trans; [exact (effectMount_load (b, k)) | cbn [triggers]; lia].
Qed.

Lemma run_load trace :
  forall w w',
    run hasRoot debounceMs w trace = Some w' ->
    (load w' <= load w + triggerCount trace)%nat.
Proof.
  induction trace as [| e trace IH]; intros w w' H; cbn [run triggerCount fold_right] in *.
  - injection H as <-. lia.
  - destruct (step hasRoot debounceMs w e) as [w1 |] eqn:Hstep; [| discriminate].
    specialize (IH w1 w' H). apply step_load in Hstep.
    fold (triggerCount trace). lia.
Qed.

(** After the teardown the destroyed guard holds, and no callback computes
    anything, until the effect runs again. *)
Lemma destroyed_step w e w' :
  destroyedRef (snd w) = true ->
  noMount e = true ->
  step hasRoot debounceMs w e = Some w' ->
  destroyedRef (snd w') = true /\ computedAt (snd w') = computedAt (snd w)
  /\ (timeouts (fst w) = [] -> animationFrames (fst w) = [] ->
      timeouts (fst w') = [] /\ animationFrames (fst w') = []).
Proof.
  destruct w as [[clock next ts fs] [destroyed tid rid cs]]. cbn [fst snd destroyedRef].
  intros -> Hm H. destruct e as [| dt | h | h | |]; try discriminate; cbn [step] in H.
  - injection H as <-. unfold scheduleRecompute. destruct hasRoot; cbn; auto.
  - destruct (dt <? 0); [discriminate |]. injection H as <-. cbn. auto.
  - destruct (dueTimeOf _ h) as [due |]; [| discriminate].
    destruct (due <=? _); [| discriminate]. injection H as <-.
    unfold timeoutCallback, recomputeNow. destruct hasRoot; cbn.
    + split; [reflexivity |]. split; [reflexivity |]. intros -> ->. cbn. auto.
    + split; [reflexivity |]. split; [reflexivity |]. intros -> ->. cbn. auto.
  - destruct (existsb _ _); [| discriminate]. injection H as <-.
    unfold frameCallback. cbn.
    split; [reflexivity |]. split; [reflexivity |]. intros -> ->. cbn. auto.
  - injection H as <-. unfold effectCleanup. cbn [withDestroyed timeoutIdRef rafIdRef].
    destruct tid as [h |], rid as [r |]; cbn;
      (split; [reflexivity |]); (split; [reflexivity |]); intros -> ->; cbn; auto.
Qed.

Lemma destroyed_run trace :
  forall w w',
    destroyedRef (snd w) = true ->
    forallb noMount trace = true ->
    run hasRoot debounceMs w trace = Some w' ->
    destroyedRef (snd w') = true /\ computedAt (snd w') = computedAt (snd w)
    /\ (timeouts (fst w) = [] -> animationFrames (fst w) = [] ->
        timeouts (fst w') = [] /\ animationFrames (fst w') = []).
Proof.
  induction trace as [| e trace IH]; intros w w' Hd Hm H; cbn [run forallb] in *.
  - injection H as <-. auto.
  - apply andb_prop in Hm as [He Hm].
    destruct (step hasRoot debounceMs w e) as [w1 |] eqn:Hstep; [| discriminate].
    destruct (destroyed_step w e w1 Hd He Hstep) as (Hd1 & Hc1 & Hp1).
    destruct (IH w1 w' Hd1 Hm H) as (Hd' & Hc' & Hp').
    split; [exact Hd' |]. split; [congruence |].
    intros Ht Hf. destruct (Hp1 Ht Hf) as [Ht1 Hf1]. apply Hp'; assumption.
Qed.

Lemma effectCleanup_destroys w :
  destroyedRef (snd (effectCleanup w)) = true
  /\ computedAt (snd (effectCleanup w)) = computedAt (snd w)
  /\ (coherent w ->
      timeouts (fst (effectCleanup w)) = []
      /\ animationFrames (fst (effectCleanup w)) = []).
Proof.
  destruct w as [[clock next ts fs] [destroyed tid rid cs]].
  unfold effectCleanup, coherent.
  cbn [fst snd withDestroyed timeoutIdRef rafIdRef timeouts animationFrames].
  destruct tid as [h |], rid as [r |]; cbn;
    (split; [reflexivity |]); (split; [reflexivity |]); intros [Ht Hf].
  - destruct Ht as [due ->]. subst fs. cbn. rewrite !Nat.eqb_refl. cbn. auto.
  - destruct Ht as [due ->]. subst fs. cbn. rewrite !Nat.eqb_refl. cbn. auto.
  - subst ts fs. cbn. rewrite !Nat.eqb_refl. cbn. auto.
  - subst ts fs. auto.
Qed.

End Hook.

(** X14: in every run of the hook, the recomputations that ran or are
    under way (pending timeouts and frame requests) grow by at most one per
    change event or mount; so from rest [computePageBreaks] never runs more
    often than change events and mounts occurred. *)
Theorem computations_bounded_by_triggers hasRoot debounceMs w trace w' :
  run hasRoot debounceMs w trace = Some w' ->
  (load w' <= load w + triggerCount trace)%nat
  /\ (idle w -> (List.length (computedAt (snd w')) <= triggerCount trace)%nat).
Proof.
  intros H. pose proof (run_load hasRoot debounceMs trace w w' H) as Hl.
  split; [exact Hl |].
  intros (Ht & Hf & _ & _ & _ & Hc). unfold load in Hl.
  rewrite Ht, Hf, Hc in Hl. cbn [List.length] in Hl. lia.
Qed.

(** X14 on the burst of five change events: one computation, five
    triggers. *)
Lemma computations_bounded_by_triggers_witness :
  (List.length
     (computedAt (snd (mkBrowser 1172 6 [] [], mkHook false None None [1072%Z])))
   <= triggerCount fiveChanges)%nat.
Proof.
  exact (proj2 (computations_bounded_by_triggers true 50 restingWorld fiveChanges
                  (mkBrowser 1172 6 [] [], mkHook false None None [1072]) eq_refl)
               (conj eq_refl (conj eq_refl (conj eq_refl
                  (conj eq_refl (conj eq_refl eq_refl)))))).
Defined.

(** X15: after the teardown no callback updates the result: whatever events
    follow, short of the effect running again, the times at which
    [computePageBreaks] ran stay as they were, also for a timeout or a frame
    that was still pending; and when the refs named what was pending, nothing
    is pending afterwards and nothing is scheduled again. *)
Theorem teardown_is_final hasRoot debounceMs w trace w' :
  forallb noMount trace = true ->
  run hasRoot debounceMs w (Teardown :: trace) = Some w' ->
  computedAt (snd w') = computedAt (snd w)
  /\ destroyedRef (snd w') = true
  /\ (coherent w -> timeouts (fst w') = [] /\ animationFrames (fst w') = []).
Proof.
  intros Hm H. cbn [run] in H.
  assert (Hstep : step hasRoot debounceMs w Teardown = Some (effectCleanup w))
    by (destruct w; reflexivity).
  rewrite Hstep in H.
  destruct (effectCleanup_destroys w) as (Hd & Hc & Hp).
  destruct (destroyed_run hasRoot debounceMs trace _ _ Hd Hm H) as (Hd' & Hc' & Hp').
  split; [congruence |]. split; [exact Hd' |].
  intros Hcoh. destruct (Hp Hcoh) as [Ht Hf]. apply Hp'; assumption.
Qed.

(** X15 on a hook torn down 20ms after a change event: the change events
    and the 200ms that follow compute nothing. *)
Lemma teardown_is_final_witness :
  exists w',
    run true 50 restingWorld
      [Change; Elapse 20; Teardown; Change; Elapse 100; Change; Elapse 100]
    = Some w'
    /\ computedAt (snd w') = []
    /\ timeouts (fst w') = [] /\ animationFrames (fst w') = [].
Proof.
  eexists. split; [reflexivity |].
  destruct (teardown_is_final true 50
              (mkBrowser 1020 1 [(0%nat, 1050)] [], mkHook false (Some 0%nat) None [])
              [Change; Elapse 100; Change; Elapse 100]
              (mkBrowser 1220 1 [] [], mkHook true None None [])
              eq_refl eq_refl) as (Hc & _ & Hp).
  split; [exact Hc |]. apply Hp. split; [exists 1050; reflexivity | reflexivity].
Defined.

Lemma rootless_step debounceMs w e w' :
  animationFrames (fst w) = [] ->
  step false debounceMs w e = Some w' ->
  computedAt (snd w') = computedAt (snd w)
  /\ animationFrames (fst w') = []
  /\ (List.length (timeouts (fst w')) <= List.length (timeouts (fst w)))%nat.
Proof.
  destruct w as [[clock next ts fs] [destroyed tid rid cs]].
  cbn [fst snd animationFrames]. intros -> H.
  destruct e as [| dt | h | h | |]; cbn [step] in H.
  - injection H as <-. cbn. auto.
  - destruct (dt <? 0); [discriminate |]. injection H as <-. cbn. auto.
  - destruct (dueTimeOf _ h) as [due |]; [| discriminate].
    destruct (due <=? _); [| discriminate]. injection H as <-. cbn.
    split; [reflexivity |]. split; [reflexivity |]. apply filter_length_le.
  - cbn in H. discriminate.
  - injection H as <-. unfold effectCleanup.
    destruct tid as [h |], rid as [r |]; cbn;
      (split; [reflexivity |]); (split; [reflexivity |]);
      try apply filter_length_le; lia.
  - injection H as <-. cbn. auto.
Qed.

(** X16: without a root the hook measures nothing: whatever events occur,
    mounts and change events included, no animation frame is requested, no
    timeout is added, and [computePageBreaks] does not run. *)
Theorem without_root_nothing_runs debounceMs trace :
  forall w w',
    animationFrames (fst w) = [] ->
    run false debounceMs w trace = Some w' ->
    computedAt (snd w') = computedAt (snd w)
    /\ animationFrames (fst w') = []
    /\ (List.length (timeouts (fst w')) <= List.length (timeouts (fst w)))%nat.
Proof.
  induction trace as [| e trace IH]; intros w w' Hf H; cbn [run] in H.
  - injection H as <-. auto.
  - destruct (step false debounceMs w e) as [w1 |] eqn:Hstep; [| discriminate].
    destruct (rootless_step debounceMs w e w1 Hf Hstep) as (Hc1 & Hf1 & Ht1).
    destruct (IH w1 w' Hf1 H) as (Hc' & Hf' & Ht').
    split; [congruence |]. split; [exact Hf' | lia].
Qed.

Lemma without_root_nothing_runs_witness :
  exists w',
    run false 50 restingWorld [Mount; Change; Elapse 100; Change; Elapse 100] = Some w'
    /\ computedAt (snd w') = []
    /\ animationFrames (fst w') = []
    /\ (List.length (timeouts (fst w')) <= 0)%nat.
Proof.
  eexists. split; [reflexivity |].
  exact (without_root_nothing_runs 50 [Mount; Change; Elapse 100; Change; Elapse 100]
           restingWorld _ eq_refl eq_refl).
Defined.

End SchedulerMoreFacts.

(** ** The page chrome *)

Module PageChromeFacts.
Import Dom PageCalculations PageChrome Examples MoreExamples.

Lemma roundQuotient_shift first s i :
  0 < s -> s <= 2 * first -> first <= s ->
  roundQuotient (first + i * s) s = i + 1.
Proof.
  intros Hs Hlow Hhigh. unfold roundQuotient.
  replace (2 * (first + i * s) + s) with ((i + 1) * (2 * s) + (2 * first - s)) by lia.
  rewrite Z.div_add_l by lia.
  rewrite Z.div_small by lia. lia.
Qed.

(** X17: when the bottom margin and the gap together do not exceed the top
    margin and the page height together (the app's geometry has 120 against
    960), the indicator labels the breaks 2, 3, 4, ...: the [i]-th break,
    counted from 0, opens page [i + 2]. *)
Theorem indicator_labels_count_pages L root fuel options r :
  computePageBreaks L root fuel options = Some r ->
  0 < orDefault (topMarginPx options) 0 + pageHeightPx options ->
  0 <= orDefault (bottomMarginPx options) 0 ->
  0 <= orDefault (pageGapPx options) 0 ->
  orDefault (bottomMarginPx options) 0 + orDefault (pageGapPx options) 0
    <= orDefault (topMarginPx options) 0 + pageHeightPx options ->
  indicatorLabels r
  = List.map (fun i => Z.of_nat i + 2) (seq 0 (List.length (breaks r))).
Proof.
  intros H Hpos Hb Hg Hle.
  pose proof (EngineFacts.computePageBreaks_Some _ _ _ _ _ H) as (_ & _ & _ & Hstride).
  apply EngineFacts.computePageBreaks_wellPaged in H as [Hp _].
  unfold indicatorLabels.
  rewrite <- (map_map pageStartYOf (fun y => pageNumber y (pageStridePx r))).
  rewrite Hp. unfold progression. rewrite map_map.
  apply map_ext. intros i. unfold pageNumber. rewrite Hstride.
  unfold firstPageBottom, strideOf in *.
  rewrite roundQuotient_shift by lia. lia.
Qed.

(** X17 on a document of four paragraphs under the app's geometry: its one
    break is labelled 2. *)
Lemma indicator_labels_count_pages_witness :
  exists r,
    computePageBreaks fourLayout fourParagraphs 1 appOptions = Some r
    /\ indicatorLabels r = [2].
Proof.
  destruct (computePageBreaks fourLayout fourParagraphs 1 appOptions) as [r |] eqn:Hr;
    [| discriminate].
  exists r. split; [reflexivity |].
  rewrite (indicator_labels_count_pages fourLayout fourParagraphs 1 appOptions r Hr
             eq_refl ltac:(discriminate) ltac:(discriminate) ltac:(discriminate)).
  injection Hr as <-. reflexivity.
Defined.

(** X18: [PageContainer] draws one paper more than there are breaks; when
    the stride is at least the paper height, the papers do not overlap and
    every one of them lies inside the overlay. *)
Theorem papers_fit_overlay r idx :
  PAGE_PAPER_HEIGHT_PX <= pageStridePx r ->
  0 <= idx < pageCount (Some r) ->
  pageCount (Some r) = Z.of_nat (List.length (breaks r)) + 1
  /\ 0 <= paperTop (Some r) idx
  /\ paperTop (Some r) idx + PAGE_PAPER_HEIGHT_PX <= paperTop (Some r) (idx + 1)
  /\ paperTop (Some r) idx + PAGE_PAPER_HEIGHT_PX <= overlayHeightPx (Some r).
Proof.
  unfold overlayHeightPx, pageCount, paperTop, containerStridePx, PAGE_PAPER_HEIGHT_PX.
  intros Hs Hidx.
  set (n := Z.of_nat (List.length (breaks r))) in *.
  assert (Hn : 0 <= n) by (unfold n; lia).
  replace (Z.max 1 (n + 1)) with (n + 1) in * by lia.
  split; [reflexivity |]. split; [nia |]. split; [nia |].
  assert ((idx + 1) * pageStridePx r <= (n + 1) * pageStridePx r) by nia.
  assert ((idx + 1) * pageStridePx r = idx * pageStridePx r + pageStridePx r) by ring.
  lia.
Qed.

(** X18 on a result with one break and the app's stride of 1080: two papers,
    the second from 1080 to 2136, inside an overlay of 2160. *)
Lemma papers_fit_overlay_witness :
  pageCount (Some oneBreakResult) = 2
  /\ paperTop (Some oneBreakResult) 1 + PAGE_PAPER_HEIGHT_PX
     <= overlayHeightPx (Some oneBreakResult).
Proof.
  assert (Hs : PAGE_PAPER_HEIGHT_PX <= pageStridePx oneBreakResult)
    by (cbv; discriminate).
  assert (Hidx : 0 <= 1 < pageCount (Some oneBreakResult))
    by (split; [cbv; discriminate | reflexivity]).
  destruct (papers_fit_overlay oneBreakResult 1 Hs Hidx) as (Hcount & _ & _ & Hfit).
  split; [exact Hcount | exact Hfit].
Defined.

End PageChromeFacts.
